(** * The runner of chapter7/patterns/runner/runner.go

    A [Runner] runs a list of tasks one after the other on a worker
    goroutine, while the goroutine that called [Start] waits in a [select]
    for either the worker's result (channel [complete]) or the deadline
    (channel [timeout]).  Between two tasks the worker polls the channel
    [interrupt], to which package os/signal relays the operating system's
    interrupt.

    The program is concurrent, so it is modelled as a labelled transition
    system: a state holds the Runner struct, the part of the Go runtime the
    runner talks to (the signal subscription and the deadline timer) and the
    program counter of each goroutine; a label says who moves next.  Every
    transition is one atomic action of the source. *)

From Stdlib Require Import List ZArith Lia Bool.
Import ListNotations.

Set Implicit Arguments.

(** ** Go channels *)

(** A channel is its queue of buffered values and its capacity;
    [make(chan T, n)] is [make n] and [make(chan T)] is [make 0]. *)
Record chan (A : Type) : Type := mkChan { buf : list A; cap : nat }.

Definition make (A : Type) (n : nat) : chan A := mkChan [] n.

(** A send can complete without a receiver only when the buffer has room. *)
Definition has_room (A : Type) (c : chan A) : bool :=
  (length (buf c) <? cap c)%nat.

Definition push (A : Type) (v : A) (c : chan A) : chan A :=
  mkChan (buf c ++ [v]) (cap c).

(** [select { case c <- v: default: }], the send that never blocks: the
    value is dropped when the buffer is full.  Both os/signal and the
    runtime's timers send this way. *)
Definition try_send (A : Type) (v : A) (c : chan A) : chan A :=
  if has_room c then push v c else c.

(** [select { case v := <-c: ... default: ... }] on a buffered value. *)
Definition try_recv (A : Type) (c : chan A) : option (A * chan A) :=
  match buf c with
  | [] => None
  | v :: q => Some (v, mkChan q (cap c))
  end.

(** ** Values of the os, errors and time packages *)

(** os.Signal: the two signals package os names. *)
Inductive Signal : Type := Interrupt | Kill.

Definition Signal_eqb (a b : Signal) : bool :=
  match a, b with
  | Interrupt, Interrupt | Kill, Kill => true
  | _, _ => false
  end.

(** The two error values of the package; the nil error is [None]. *)
Inductive error : Type := ErrTimeout | ErrInterrupt.

(** time.Duration (nanoseconds) and time.Time (an instant). *)
Definition Duration := Z.
Definition Time := Z.

Section Model.

(** What the tasks act on.  The runner never looks at it. *)
Variable World : Type.

(** [func(int)]: a task gets its index and has an effect. *)
Definition Task : Type := Z -> World -> World.

(** ** The Runner struct *)

Record Runner : Type := mkRunner {
  interrupt : chan Signal;
  complete : chan (option error);
  timeout : chan Time;
  tasks : list Task
}.

(** ** Program counters *)

(** The goroutine that calls [Start]. *)
Inductive MainPC : Type :=
| MInit                              (* Start not called yet *)
| MNotified                          (* after signal.Notify, before go *)
| MSelect                            (* in the select of Start *)
| MReturned (err : option error).    (* Start has returned err *)

(** The goroutine [go func() { r.complete <- r.run() }()]. *)
Inductive WorkerPC : Type :=
| WNone                                       (* not started *)
| WLoop (id : Z) (rest : list Task)           (* run: head of the range loop *)
| WStop                                       (* gotInterrupt: received, before signal.Stop *)
| WTask (id : Z) (task : Task) (rest : list Task)  (* run: inside task(id) *)
| WSend (err : option error)                  (* run returned err: at r.complete <- err *)
| WExit.                                      (* the goroutine has ended *)

(** ** The state of the system *)

Record Sys : Type := mkSys {
  rn : Runner;
  subscribed : bool;          (* os/signal relays os.Interrupt to r.interrupt *)
  timer : option Duration;    (* the timer of time.After, until it fires *)
  main : MainPC;
  worker : WorkerPC;
  world : World;
  invoked : list (Task * Z);  (* history: the calls task(id), in order *)
  checks : list bool          (* history: what each poll of r.interrupt found *)
}.

Definition with_interrupt (c : chan Signal) (s : Sys) : Sys :=
  mkSys (mkRunner c (complete (rn s)) (timeout (rn s)) (tasks (rn s)))
        (subscribed s) (timer s) (main s) (worker s) (world s) (invoked s) (checks s).

Definition with_complete (c : chan (option error)) (s : Sys) : Sys :=
  mkSys (mkRunner (interrupt (rn s)) c (timeout (rn s)) (tasks (rn s)))
        (subscribed s) (timer s) (main s) (worker s) (world s) (invoked s) (checks s).

Definition with_timeout (c : chan Time) (s : Sys) : Sys :=
  mkSys (mkRunner (interrupt (rn s)) (complete (rn s)) c (tasks (rn s)))
        (subscribed s) (timer s) (main s) (worker s) (world s) (invoked s) (checks s).

Definition with_tasks (ts : list Task) (s : Sys) : Sys :=
  mkSys (mkRunner (interrupt (rn s)) (complete (rn s)) (timeout (rn s)) ts)
        (subscribed s) (timer s) (main s) (worker s) (world s) (invoked s) (checks s).

Definition with_subscribed (b : bool) (s : Sys) : Sys :=
  mkSys (rn s) b (timer s) (main s) (worker s) (world s) (invoked s) (checks s).

Definition with_timer (t : option Duration) (s : Sys) : Sys :=
  mkSys (rn s) (subscribed s) t (main s) (worker s) (world s) (invoked s) (checks s).

Definition with_main (m : MainPC) (s : Sys) : Sys :=
  mkSys (rn s) (subscribed s) (timer s) m (worker s) (world s) (invoked s) (checks s).

Definition with_worker (w : WorkerPC) (s : Sys) : Sys :=
  mkSys (rn s) (subscribed s) (timer s) (main s) w (world s) (invoked s) (checks s).

Definition with_world (w : World) (s : Sys) : Sys :=
  mkSys (rn s) (subscribed s) (timer s) (main s) (worker s) w (invoked s) (checks s).

Definition log_call (t : Task) (id : Z) (s : Sys) : Sys :=
  mkSys (rn s) (subscribed s) (timer s) (main s) (worker s) (world s)
        (invoked s ++ [(t, id)]) (checks s).

Definition log_check (b : bool) (s : Sys) : Sys :=
  mkSys (rn s) (subscribed s) (timer s) (main s) (worker s) (world s)
        (invoked s) (checks s ++ [b]).

(** ** New and Add *)

(** [New(d)]: the three channels, no task, and the timer of [time.After(d)]
    started.  [w] is the world the program is in. *)
Definition New (d : Duration) (w : World) : Sys :=
  mkSys (mkRunner (make Signal 1) (make (option error) 0) (make Time 1) [])
        false (Some d) MInit WNone w [] [].

(** [r.Add(tasks...)]: [r.tasks = append(r.tasks, tasks...)]. *)
Definition Add (ts : list Task) (s : Sys) : Sys :=
  with_tasks (tasks (rn s) ++ ts) s.

(** Several calls of Add, one per batch, in order. *)
Definition AddAll (batches : list (list Task)) (s : Sys) : Sys :=
  fold_left (fun acc ts => Add ts acc) batches s.

(** ** The runtime: signals and the timer *)

(** [signal.Notify(r.interrupt, os.Interrupt)]. *)
Definition Notify (s : Sys) : Sys := with_subscribed true s.

(** [signal.Stop(r.interrupt)]. *)
Definition Stop (s : Sys) : Sys := with_subscribed false s.

(** The operating system raises [sg].  os/signal relays it to r.interrupt
    when the channel is subscribed and the signal is the one asked for, with
    a send that never blocks.  A signal nobody relays does not reach the
    runner (what the process does with it is outside this model). *)
Definition relay (sg : Signal) (s : Sys) : Sys :=
  if subscribed s && Signal_eqb sg Interrupt
  then with_interrupt (try_send sg (interrupt (rn s))) s
  else s.

(** The timer of [time.After] fires, once: the time is sent on r.timeout,
    again with a send that never blocks.  Time itself is not modelled: when
    the timer fires is up to the schedule. *)
Definition fire (now : Time) (s : Sys) : option Sys :=
  match timer s with
  | Some _ => Some (with_timer None (with_timeout (try_send now (timeout (rn s))) s))
  | None => None
  end.

(** ** gotInterrupt *)

(** The whole of gotInterrupt when nothing else moves in between: the
    select with a default, and signal.Stop when a signal was received. *)
Definition gotInterrupt (s : Sys) : bool * Sys :=
  match try_recv (interrupt (rn s)) with
  | Some (_, c) => (true, Stop (log_check true (with_interrupt c s)))
  | None => (false, log_check false s)
  end.

(** ** run *)

(** The whole of run when nothing else moves in between: the range loop
    from index [id] over the tasks [ts] still to come.  A task is taken to
    return; its effect on the world is there when it has returned. *)
Fixpoint run_loop (id : Z) (ts : list Task) (s : Sys) : option error * Sys :=
  match ts with
  | [] => (None, s)
  | task :: rest =>
      let (got, s1) := gotInterrupt s in
      if got
      then (Some ErrInterrupt, s1)
      else run_loop (id + 1) rest
             (with_world (task id (world s1)) (log_call task id s1))
  end.

Definition run (s : Sys) : option error * Sys :=
  run_loop 0 (tasks (rn s)) s.

(** ** run, one action at a time *)

(** The same loop cut into the actions between which the other goroutine,
    the operating system and the timer can move. *)

Definition run_step (s : Sys) : option Sys :=
  match worker s with
  | WNone => None
  | WLoop id [] =>
      (* the range is exhausted: return nil *)
      Some (with_worker (WSend None) s)
  | WLoop id (task :: rest) =>
      match try_recv (interrupt (rn s)) with
      | Some (_, c) =>
          (* case <-r.interrupt *)
          Some (with_worker WStop (log_check true (with_interrupt c s)))
      | None =>
          (* default: return false; then task(id) starts *)
          Some (with_worker (WTask id task rest) (log_call task id (log_check false s)))
      end
  | WStop =>
      (* signal.Stop(r.interrupt); return true; return ErrInterrupt *)
      Some (with_worker (WSend (Some ErrInterrupt)) (Stop s))
  | WTask id task rest =>
      (* task(id) returns; next iteration *)
      Some (with_worker (WLoop (id + 1) rest) (with_world (task id (world s)) s))
  | WSend err =>
      (* r.complete <- err with nobody receiving: only into a free buffer slot *)
      if has_room (complete (rn s))
      then Some (with_worker WExit (with_complete (push err (complete (rn s))) s))
      else None
  | WExit => None
  end.

(** ** Start, one action at a time *)

(** The statements of Start before the select. *)
Definition Start_step (s : Sys) : option Sys :=
  match main s with
  | MInit => Some (with_main MNotified (Notify s))
  | MNotified =>
      Some (with_main MSelect (with_worker (WLoop 0 (tasks (rn s))) s))
  | MSelect | MReturned _ => None
  end.

(** [case err := <-r.complete: return err]: a buffered value, or else the
    value of a worker waiting to send (the send and the receive happen
    together, and the worker goes on to its end). *)
Definition select_complete (s : Sys) : option Sys :=
  match main s with
  | MSelect =>
      match try_recv (complete (rn s)) with
      | Some (err, c) => Some (with_main (MReturned err) (with_complete c s))
      | None =>
          match worker s with
          | WSend err => Some (with_main (MReturned err) (with_worker WExit s))
          | _ => None
          end
      end
  | _ => None
  end.

(** [case <-r.timeout: return ErrTimeout]. *)
Definition select_timeout (s : Sys) : option Sys :=
  match main s with
  | MSelect =>
      match try_recv (timeout (rn s)) with
      | Some (_, c) => Some (with_main (MReturned (Some ErrTimeout)) (with_timeout c s))
      | None => None
      end
  | _ => None
  end.

(** ** The transition system *)

Inductive Label : Type :=
| LSignal (sg : Signal)   (* the operating system raises a signal *)
| LTimer (now : Time)     (* the deadline timer fires *)
| LStart                  (* Start: next statement before the select *)
| LComplete               (* Start: the select takes r.complete *)
| LTimeout                (* Start: the select takes r.timeout *)
| LWorker.                (* the worker's next action *)

Definition step (l : Label) (s : Sys) : option Sys :=
  match l with
  | LSignal sg => Some (relay sg s)
  | LTimer now => fire now s
  | LStart => Start_step s
  | LComplete => select_complete s
  | LTimeout => select_timeout s
  | LWorker => run_step s
  end.

(** A schedule is run from left to right; it is refused as a whole when one
    of its labels cannot move. *)
Fixpoint exec (sched : list Label) (s : Sys) : option Sys :=
  match sched with
  | [] => Some s
  | l :: ls =>
      match step l s with
      | Some s' => exec ls s'
      | None => None
      end
  end.

(** The labels of the program's own goroutines, as opposed to the
    operating system and the timer. *)
Definition program (l : Label) : bool :=
  match l with
  | LStart | LComplete | LTimeout | LWorker => true
  | LSignal _ | LTimer _ => false
  end.

Definition program_steps (sched : list Label) : nat :=
  length (filter program sched).

Definition returned (s : Sys) : bool :=
  match main s with MReturned _ => true | _ => false end.

(** A signal is put into r.interrupt by hand, as code of the package can do
    before it calls Start. *)
Definition preload (sg : Signal) (s : Sys) : Sys :=
  with_interrupt (try_send sg (interrupt (rn s))) s.

(** ** What a run leaves behind *)

(** The calls a run makes on [ts] when the first one has index [i]. *)
Fixpoint indexed (i : Z) (ts : list Task) : list (Task * Z) :=
  match ts with
  | [] => []
  | t :: r => (t, i) :: indexed (i + 1) r
  end.

(** The effect of these calls on the world. *)
Fixpoint apply_all (i : Z) (ts : list Task) (w : World) : World :=
  match ts with
  | [] => w
  | t :: r => apply_all (i + 1) r (t i w)
  end.

End Model.

Arguments WNone {World}.
Arguments WLoop {World} id rest.
Arguments WStop {World}.
Arguments WTask {World} id task rest.
Arguments WSend {World} err.
Arguments WExit {World}.
Arguments mkRunner {World} interrupt complete timeout tasks.
Arguments mkSys {World} rn subscribed timer main worker world invoked checks.

(** * Scenarios *)

(** Concrete tasks, runners and schedules, used below to exercise the
    properties. *)
Module Scenario.

(** The tasks of the scenarios write into a log. *)
Definition Log : Type := list Z.

(** A task that logs its tag and the index it was called with. *)
Definition mark (tag : Z) : Task Log := fun id w => (w ++ [tag; id])%Z.

Definition ta : Task Log := mark 10%Z.
Definition tb : Task Log := mark 20%Z.
Definition tc : Task Log := mark 30%Z.

(** [r := New(1000); r.Add(ta); r.Add(tb, tc)]. *)
Definition three_tasks : Sys Log := AddAll [[ta]; [tb; tc]] (New 1000%Z []).

(** [r := New(1000); r.Add(ta)]. *)
Definition one_task : Sys Log := AddAll [[ta]] (New 1000%Z []).

(** [r := New(0)], no task. *)
Definition no_task : Sys Log := New 0%Z [].

(** Start, then the worker alone until run returns nil, then the select
    takes r.complete. *)
Definition full_run : list Label :=
  [LStart; LStart] ++ repeat LWorker 7 ++ [LComplete].

(** Start; ta and tb are called; an interrupt arrives while tb runs. *)
Definition interrupt_in_tb : list Label :=
  [LStart; LStart; LWorker; LWorker; LWorker; LSignal Interrupt].

(** tb returns; the poll receives; signal.Stop; the select takes r.complete. *)
Definition then_interrupted : list Label :=
  [LWorker; LWorker; LWorker; LComplete].

(** Start; ta is called; the deadline passes while ta runs. *)
Definition deadline_in_ta : list Label :=
  [LStart; LStart; LWorker; LTimer 9%Z].

(** The state a schedule leads to (the start state when it is refused). *)
Definition final (sched : list Label) (s : Sys Log) : Sys Log :=
  match exec sched s with
  | Some s' => s'
  | None => s
  end.


(** [no_task] with an interrupt already in r.interrupt. *)
Definition no_task_signalled : Sys Log := preload Interrupt no_task.



(** [three_tasks] when the interrupt has arrived during tb. *)
Definition in_tb : Sys Log := final interrupt_in_tb three_tasks.

(** [three_tasks] when the deadline has passed during ta. *)
Definition in_ta : Sys Log := final deadline_in_ta three_tasks.

(** Start on no task: run returns nil; the select takes r.complete. *)
Definition empty_run : list Label := [LStart; LStart; LWorker; LComplete].

(** The deadline passes before Start is called, and the worker is at its
    send before Start reaches the select. *)
Definition both_ready : list Label := [LTimer 1%Z; LStart; LStart; LWorker].

(** An interrupt is received and the subscription stopped; then the
    deadline passes and the select takes r.timeout. *)
Definition stop_then_deadline : list Label :=
  [LStart; LStart; LSignal Interrupt; LWorker; LWorker; LTimer 3%Z; LTimeout].

(** Start returns ErrTimeout while ta runs. *)
Definition timed_out_in_ta : list Label := deadline_in_ta ++ [LTimeout].

(** After that: an interrupt; ta returns; the poll receives; signal.Stop. *)
Definition orphan_interrupted : list Label :=
  [LSignal Interrupt; LWorker; LWorker; LWorker].

(** [one_task] when Start has returned ErrTimeout while ta runs. *)
Definition orphaned : Sys Log := final timed_out_in_ta one_task.

(** [three_tasks] when Start has returned ErrTimeout while ta runs. *)
Definition left_behind : Sys Log := final timed_out_in_ta three_tasks.

(** ta returns; the loop ends. *)
Definition orphan_finishes : list Label := [LWorker; LWorker].

(** The worker left behind goes through the rest of the loop: ta returns,
    tb and tc are polled for, called and return, and run returns. *)
Definition orphan_runs_on : list Label := repeat LWorker 6.

(** An interrupt is received; a second one arrives before signal.Stop. *)
Definition second_in_window : list Label :=
  [LStart; LStart; LSignal Interrupt; LWorker; LSignal Interrupt; LWorker].

(** An interrupt arrives while the last task runs. *)
Definition interrupt_in_last : list Label :=
  [LStart; LStart; LWorker; LSignal Interrupt; LWorker; LWorker; LComplete].

(** [three_tasks] when Start is in its select and the worker has not moved. *)
Definition started : Sys Log := final [LStart; LStart] three_tasks.

(** An interrupt is received, a second one arrives before signal.Stop, and
    Start returns the worker's ErrInterrupt. *)
Definition window_then_return : list Label := second_in_window ++ [LComplete].

(** The whole run in which the interrupt arrives during tb. *)
Definition interrupted_run : list Label := interrupt_in_tb ++ then_interrupted.

(** The full run with two signals that are not interrupts on the way. *)
Definition run_with_kills : list Label :=
  [LStart; LStart; LSignal Kill; LWorker; LSignal Kill]
  ++ repeat LWorker 6 ++ [LComplete].

(** Start; the only task is called. *)
Definition last_running : list Label := [LStart; LStart; LWorker].

(** [one_task] while its only task runs. *)
Definition in_last : Sys Log := final last_running one_task.

(** An interrupt arrives; the task returns; the loop ends; the select takes
    r.complete. *)
Definition late_interrupt : list Label :=
  [LSignal Interrupt; LWorker; LWorker; LComplete].

End Scenario.

(** * Properties *)

Section Proofs.

Context {World : Type}.

Implicit Types (s : Sys World) (w : World).
Implicit Types (ts done rest : list (Task World)).

(** ** Lists of calls *)

Lemma indexed_app i ts1 ts2 :
  indexed i (ts1 ++ ts2) = indexed i ts1 ++ indexed (i + Z.of_nat (length ts1)) ts2.
Proof.
  revert i; induction ts1 as [|t r IH]; intros i; simpl.
  - now rewrite Z.add_0_r.
  - rewrite IH. do 3 f_equal. lia.
Qed.

Lemma indexed_snoc done (t : Task World) :
  indexed 0 (done ++ [t]) = indexed 0 done ++ [(t, Z.of_nat (length done))].
Proof. now rewrite indexed_app. Qed.

Lemma indexed_length i ts : length (indexed i ts) = length ts.
Proof. revert i; induction ts; intros; simpl; auto. Qed.

Lemma indexed_positions i ts :
  map snd (indexed i ts) = map (fun k => (i + Z.of_nat k)%Z) (seq 0 (length ts)).
Proof.
  revert i; induction ts as [|t r IH]; intros i; simpl; [reflexivity|].
  rewrite IH, Z.add_0_r. f_equal.
  rewrite <- seq_shift, map_map. apply map_ext. intros; lia.
Qed.

Lemma indexed_tasks i ts : map fst (indexed i ts) = ts.
Proof. revert i; induction ts; intros; simpl; [|rewrite IHts]; reflexivity. Qed.

Lemma apply_all_app i ts1 ts2 (w0 : World) :
  apply_all i (ts1 ++ ts2) w0
  = apply_all (i + Z.of_nat (length ts1)) ts2 (apply_all i ts1 w0).
Proof.
  revert i w0; induction ts1 as [|t r IH]; intros i w0; simpl.
  - now rewrite Z.add_0_r.
  - rewrite IH. f_equal. lia.
Qed.

Lemma apply_all_snoc done (t : Task World) (w0 : World) :
  apply_all 0 (done ++ [t]) w0 = t (Z.of_nat (length done)) (apply_all 0 done w0).
Proof. now rewrite apply_all_app. Qed.

Lemma repeat_snoc (A : Type) (a : A) n : repeat a n ++ [a] = repeat a (S n).
Proof. induction n; simpl; [|rewrite IHn]; reflexivity. Qed.

(** ** The invariant of a run *)

(** What the histories and the world say when the calls of [started] have
    begun, those of [finished] have returned, and a poll has found a signal
    or not ([seen]). *)
Definition Ghost (w0 : World) s (started finished : list (Task World)) (seen : bool) : Prop :=
  invoked s = indexed 0 started /\
  checks s = repeat false (length started) ++ (if seen then [true] else []) /\
  world s = apply_all 0 finished w0.

(** Start is in its select, or has left it through the timeout case. *)
Definition Waiting (m : MainPC) : Prop :=
  m = MSelect \/ m = MReturned (Some ErrTimeout).

(** What holds once run has returned [err]. *)
Definition Finished (w0 : World) s (err : option error) : Prop :=
  match err with
  | None =>
      subscribed s = true /\ Ghost w0 s (tasks (rn s)) (tasks (rn s)) false
  | Some ErrInterrupt =>
      subscribed s = false /\
      exists done rest,
        tasks (rn s) = done ++ rest /\ rest <> [] /\ Ghost w0 s done done true
  | Some ErrTimeout => False
  end.

Definition WorkerInv (w0 : World) s : Prop :=
  match worker s with
  | WNone =>
      (main s = MInit \/ (main s = MNotified /\ subscribed s = true)) /\
      Ghost w0 s [] [] false
  | WLoop id rest =>
      Waiting (main s) /\ subscribed s = true /\
      exists done,
        tasks (rn s) = done ++ rest /\ id = Z.of_nat (length done) /\
        Ghost w0 s done done false
  | WTask id t rest =>
      Waiting (main s) /\ subscribed s = true /\
      exists done,
        tasks (rn s) = done ++ t :: rest /\ id = Z.of_nat (length done) /\
        Ghost w0 s (done ++ [t]) done false
  | WStop =>
      Waiting (main s) /\ subscribed s = true /\
      exists done rest,
        tasks (rn s) = done ++ rest /\ rest <> [] /\ Ghost w0 s done done true
  | WSend err => Waiting (main s) /\ Finished w0 s err
  | WExit => exists err, main s = MReturned err /\ Finished w0 s err
  end.

Definition ChanInv s : Prop :=
  cap (interrupt (rn s)) = 1 /\ length (buf (interrupt (rn s))) <= 1 /\
  cap (complete (rn s)) = 0 /\ buf (complete (rn s)) = [] /\
  cap (timeout (rn s)) = 1 /\ length (buf (timeout (rn s))) <= 1 /\
  match timer s with
  | Some _ => buf (timeout (rn s)) = [] /\ main s <> MReturned (Some ErrTimeout)
  | None => True
  end.

Definition Inv (w0 : World) s : Prop := ChanInv s /\ WorkerInv w0 s.

Lemma tasks_AddAll batches s :
  tasks (rn (AddAll batches s)) = tasks (rn s) ++ concat batches.
Proof.
  unfold AddAll. revert s; induction batches as [|b bs IH]; intros s; simpl.
  - now rewrite app_nil_r.
  - rewrite IH. simpl. now rewrite app_assoc.
Qed.

Lemma AddAll_frame batches s :
  AddAll batches s = with_tasks (tasks (rn s) ++ concat batches) s.
Proof.
  unfold AddAll. revert s; induction batches as [|b bs IH]; intros s; simpl.
  - rewrite app_nil_r. now destruct s as [[] ].
  - rewrite IH. unfold Add, with_tasks. simpl. now rewrite app_assoc.
Qed.

Lemma Inv_New d (w0 : World) batches : Inv w0 (AddAll batches (New d w0)).
Proof.
  rewrite AddAll_frame. unfold Inv, ChanInv, WorkerInv, Ghost. simpl.
  repeat split; auto; try lia; try discriminate.
Qed.

Ltac inv_some :=
  match goal with
  | H : Some _ = Some _ |- _ => inversion H; subst; clear H
  | H : None = Some _ |- _ => discriminate H
  end.

Lemma Inv_relay sg (w0 : World) s : Inv w0 s -> Inv w0 (relay sg s).
Proof.
  intros [HC HW]. unfold relay.
  destruct (subscribed s && Signal_eqb sg Interrupt); [|split; assumption].
  split.
  - destruct HC as (c1 & l1 & HC). unfold ChanInv, try_send, has_room; simpl.
    rewrite c1.
    destruct (buf (interrupt (rn s))) as [|x [|y q]] eqn:E; simpl in *;
      rewrite ?E; simpl; repeat split; try lia; try apply HC; auto.
  - exact HW.
Qed.

Lemma Inv_fire now (w0 : World) s s' : Inv w0 s -> fire now s = Some s' -> Inv w0 s'.
Proof.
  intros [HC HW] H. unfold fire in H.
  destruct (timer s) eqn:Et; [|discriminate]. inv_some.
  split; [|exact HW].
  unfold ChanInv in HC. rewrite Et in HC.
  destruct HC as (c1 & l1 & c2 & l2 & c3 & l3 & Hb & _).
  unfold ChanInv, try_send, has_room; simpl. rewrite c3, Hb. simpl.
  repeat split; auto; rewrite ?Hb; simpl; lia.
Qed.


Lemma Inv_Start_step (w0 : World) s s' :
  Inv w0 s -> Start_step s = Some s' -> Inv w0 s'.
Proof.
  intros [HC HW] H. unfold Start_step in H.
  unfold Inv, ChanInv, WorkerInv, Waiting in *.
  destruct (main s) eqn:Em; try discriminate; inv_some; simpl.
  - (* signal.Notify *)
    split.
    + destruct (timer s); repeat split; try apply HC; discriminate.
    + destruct (worker s); try (destruct HW as [[?|[? _]] ?]; discriminate);
        try (destruct HW as [[?|?] _]; discriminate);
        try (destruct HW as (? & ? & _); discriminate).
      destruct HW as [_ HG]. split; [right; auto | exact HG].
  - (* go func() *)
    split.
    + destruct (timer s); repeat split; try apply HC; discriminate.
    + destruct (worker s); try (destruct HW as [[?|?] _]; discriminate);
        try (destruct HW as (? & ? & _); discriminate).
      destruct HW as [[?|[_ Hs]] HG]; [discriminate|].
      repeat split; auto. exists []. repeat split; auto; apply HG.
Qed.


Lemma Inv_select_complete (w0 : World) s s' :
  Inv w0 s -> select_complete s = Some s' -> Inv w0 s'.
Proof.
  intros [HC HW] H. unfold select_complete in H.
  destruct (main s) eqn:Em; try discriminate.
  destruct HC as (c1 & l1 & c2 & l2 & c3 & l3 & Ht).
  unfold try_recv in H. rewrite l2 in H.
  destruct (worker s) eqn:Ew; try discriminate. inv_some.
  unfold WorkerInv in HW. rewrite Ew in HW. destruct HW as [_ HF].
  split.
  - unfold ChanInv; simpl. destruct (timer s); repeat split; auto; try apply Ht.
    intros E; inversion E; subst. exact HF.
  - unfold WorkerInv; simpl. exists err. split; [reflexivity|].
    destruct err as [[|]|]; exact HF.
Qed.

Lemma Inv_select_timeout (w0 : World) s s' :
  Inv w0 s -> select_timeout s = Some s' -> Inv w0 s'.
Proof.
  intros [HC HW] H. unfold select_timeout in H.
  destruct (main s) eqn:Em; try discriminate.
  destruct HC as (c1 & l1 & c2 & l2 & c3 & l3 & Ht).
  unfold try_recv in H.
  destruct (buf (timeout (rn s))) as [|x q] eqn:Eb; try discriminate. inv_some.
  split.
  - unfold ChanInv; simpl. simpl in l3.
    destruct (timer s); [destruct Ht; discriminate|].
    repeat split; auto; lia.
  - unfold WorkerInv, Waiting in *; simpl.
    destruct (worker s).
    + destruct HW as [[?|[? _]] _]; congruence.
    + destruct HW as (_ & ?); split; auto.
    + destruct HW as (_ & ?); split; auto.
    + destruct HW as (_ & ?); split; auto.
    + destruct HW as (_ & HF); split; auto.
    + destruct HW as (e & ? & _); congruence.
Qed.

Lemma Inv_run_step (w0 : World) s s' :
  Inv w0 s -> run_step s = Some s' -> Inv w0 s'.
Proof.
  intros [HC HW] H. unfold run_step in H.
  destruct HC as (c1 & l1 & c2 & l2 & c3 & l3 & Ht).
  unfold WorkerInv in HW.
  destruct (worker s) as [|id rest| |id t rest|err|] eqn:Ew; try discriminate.
  - (* head of the loop *)
    destruct HW as (Hm & Hs & done & HT & Hid & Hi & Hc & Hw).
    destruct rest as [|t rest].
    + inv_some. split; [repeat split; auto|].
      unfold WorkerInv, Finished, Ghost; simpl.
      rewrite app_nil_r in HT. rewrite HT. repeat split; auto.
    + unfold try_recv in H.
      destruct (buf (interrupt (rn s))) as [|x q] eqn:Eb; inv_some.
      * split; [repeat split; auto; simpl; rewrite Eb; simpl; lia|].
        unfold WorkerInv, Ghost; simpl. split; [auto|]. split; [auto|].
        exists done. repeat split; auto.
        -- rewrite Hi, indexed_snoc. reflexivity.
        -- rewrite Hc, length_app, app_nil_r, repeat_snoc. simpl.
           rewrite Nat.add_1_r, app_nil_r. reflexivity.
      * split; [repeat split; auto; simpl in *; lia|].
        unfold WorkerInv, Ghost; simpl. repeat split; auto.
        exists done, (t :: rest). repeat split; auto; try discriminate.
        rewrite Hc, app_nil_r. reflexivity.
  - (* signal.Stop *)
    inv_some. destruct HW as (Hm & Hs & done & rest & HT & Hne & HG).
    split; [repeat split; auto|].
    unfold WorkerInv, Finished; simpl. repeat split; auto.
    exists done, rest. repeat split; auto; apply HG.
  - (* the task returns *)
    inv_some. destruct HW as (Hm & Hs & done & HT & Hid & Hi & Hc & Hw).
    split; [repeat split; auto|].
    unfold WorkerInv, Ghost; simpl. repeat split; auto.
    exists (done ++ [t]). repeat split; auto.
    + rewrite <- app_assoc. exact HT.
    + rewrite length_app. simpl. lia.
    + rewrite apply_all_snoc, Hw, Hid. reflexivity.
  - (* the send cannot complete alone: the channel has no buffer *)
    unfold has_room in H. rewrite c2 in H. simpl in H.
    destruct (length _); discriminate.
Qed.

Lemma Inv_step l (w0 : World) s s' : Inv w0 s -> step l s = Some s' -> Inv w0 s'.
Proof.
  destruct l; simpl; intros HI H.
  - inv_some. now apply Inv_relay.
  - eapply Inv_fire; eauto.
  - eapply Inv_Start_step; eauto.
  - eapply Inv_select_complete; eauto.
  - eapply Inv_select_timeout; eauto.
  - eapply Inv_run_step; eauto.
Qed.

Lemma Inv_exec sched (w0 : World) s s' :
  Inv w0 s -> exec sched s = Some s' -> Inv w0 s'.
Proof.
  revert s; induction sched as [|l ls IH]; simpl; intros s HI H.
  - now inv_some.
  - destruct (step l s) eqn:E; [|discriminate]. eauto using Inv_step.
Qed.

Lemma exec_app sched1 sched2 s :
  exec (sched1 ++ sched2) s =
  match exec sched1 s with Some s1 => exec sched2 s1 | None => None end.
Proof.
  revert s; induction sched1 as [|l ls IH]; simpl; intros s; [reflexivity|].
  destruct (step l s); auto.
Qed.


(** ** What no transition changes *)

Lemma tasks_step l s s' : step l s = Some s' -> tasks (rn s') = tasks (rn s).
Proof.
  destruct l; simpl; intros H.
  - inv_some. unfold relay. now destruct (_ && _).
  - unfold fire in H. destruct (timer s); now inv_some.
  - unfold Start_step in H. destruct (main s); now inv_some.
  - unfold select_complete in H. destruct (main s); try discriminate.
    destruct (try_recv _) as [[]|]; [now inv_some|].
    destruct (worker s); now inv_some.
  - unfold select_timeout in H. destruct (main s); try discriminate.
    destruct (try_recv _) as [[]|]; now inv_some.
  - unfold run_step in H.
    destruct (worker s) as [|id [|t rest]| | | |]; try discriminate; try now inv_some.
    + destruct (try_recv _) as [[]|]; now inv_some.
    + destruct (has_room _); now inv_some.
Qed.

Lemma tasks_exec sched s s' : exec sched s = Some s' -> tasks (rn s') = tasks (rn s).
Proof.
  revert s; induction sched as [|l ls IH]; simpl; intros s H; [now inv_some|].
  destruct (step l s) eqn:E; [|discriminate].
  rewrite (IH _ H). eapply tasks_step; eauto.
Qed.

(** The timer never comes back once it has fired. *)
Lemma timer_step l s s' : step l s = Some s' -> timer s = None -> timer s' = None.
Proof.
  destruct l; simpl; intros H Ht.
  - inv_some. unfold relay. now destruct (_ && _).
  - unfold fire in H. rewrite Ht in H. discriminate.
  - unfold Start_step in H. destruct (main s); now inv_some.
  - unfold select_complete in H. destruct (main s); try discriminate.
    destruct (try_recv _) as [[]|]; [now inv_some|].
    destruct (worker s); now inv_some.
  - unfold select_timeout in H. destruct (main s); try discriminate.
    destruct (try_recv _) as [[]|]; now inv_some.
  - unfold run_step in H.
    destruct (worker s) as [|id [|t rest]| | | |]; try discriminate; try now inv_some.
    + destruct (try_recv _) as [[]|]; now inv_some.
    + destruct (has_room _); now inv_some.
Qed.

(** ** Termination: a bound on the program's own steps *)

Definition main_fuel (m : MainPC) : nat :=
  match m with
  | MInit => 3
  | MNotified => 2
  | MSelect => 1
  | MReturned _ => 0
  end.

Definition worker_fuel (n : nat) (p : WorkerPC World) : nat :=
  match p with
  | WNone => 2 * n + 1
  | WLoop _ rest => 2 * length rest + 1
  | WTask _ _ rest => 2 * length rest + 2
  | WStop => 1
  | WSend _ => 0
  | WExit => 0
  end.

Definition fuel s : nat :=
  main_fuel (main s) + worker_fuel (length (tasks (rn s))) (worker s).

Lemma fuel_step l (w0 : World) s s' :
  Inv w0 s -> step l s = Some s' ->
  fuel s' + (if program l then 1 else 0) <= fuel s.
Proof.
  intros [HC HW] H. unfold fuel. rewrite (tasks_step _ _ H).
  destruct l; simpl in *.
  - inv_some. unfold relay. destruct (_ && _); simpl; lia.
  - unfold fire in H. destruct (timer s); inv_some. simpl; lia.
  - unfold Start_step in H. unfold WorkerInv, Waiting in HW.
    destruct (main s) eqn:Em; inv_some; simpl; [lia|].
    destruct (worker s); simpl; try lia;
      try (destruct HW as [[?|?] _]; discriminate);
      try (destruct HW as (? & ? & _); discriminate).
  - unfold select_complete in H. destruct (main s); try discriminate.
    destruct (try_recv _) as [[]|]; [inv_some; simpl; lia|].
    destruct (worker s); inv_some; simpl; lia.
  - unfold select_timeout in H. destruct (main s); try discriminate.
    destruct (try_recv _) as [[]|]; inv_some; simpl; lia.
  - unfold run_step in H.
    destruct (worker s) as [|id [|t rest]| | | |]; try discriminate;
      try (inv_some; simpl; lia).
    + destruct (try_recv _) as [[]|]; inv_some; simpl; lia.
    + destruct HC as (_ & _ & c2 & _). unfold has_room in H. rewrite c2 in H.
      simpl in H. destruct (length _); discriminate.
Qed.

Lemma fuel_exec sched (w0 : World) s s' :
  Inv w0 s -> exec sched s = Some s' ->
  fuel s' + program_steps sched <= fuel s.
Proof.
  revert s; induction sched as [|l ls IH]; simpl; intros s HI H.
  - inv_some. unfold program_steps. simpl. lia.
  - destruct (step l s) as [s1|] eqn:E; [|discriminate].
    pose proof (fuel_step _ HI E) as F.
    pose proof (IH _ (Inv_step _ HI E) H) as G.
    unfold program_steps in *. simpl. destruct (program l); simpl; lia.
Qed.

Lemma fuel_New d (w0 : World) batches :
  fuel (AddAll batches (New d w0)) = 2 * length (concat batches) + 4.
Proof. rewrite AddAll_frame. unfold fuel. simpl. lia. Qed.

(** ** Progress: until Start returns, one of the goroutines can move *)

Lemma progress (w0 : World) s :
  Inv w0 s -> returned s = false ->
  exists l s', program l = true /\ l <> LTimeout /\ step l s = Some s'.
Proof.
  intros [HC HW] Hr. unfold returned in Hr.
  destruct (main s) eqn:Em; try discriminate.
  - exists LStart. eexists. repeat split; [discriminate|].
    simpl. unfold Start_step. rewrite Em. reflexivity.
  - exists LStart. eexists. repeat split; [discriminate|].
    simpl. unfold Start_step. rewrite Em. reflexivity.
  - unfold WorkerInv, Waiting in HW.
    destruct (worker s) as [|id [|t rest]| | |err|] eqn:Ew.
    + destruct HW as [[?|[? _]] _]; congruence.
    + exists LWorker. eexists. repeat split; [discriminate|].
      simpl. unfold run_step. rewrite Ew. reflexivity.
    + exists LWorker. simpl. unfold run_step. rewrite Ew.
      destruct (try_recv _) as [[]|]; eexists; repeat split; discriminate.
    + exists LWorker. eexists. repeat split; [discriminate|].
      simpl. unfold run_step. rewrite Ew. reflexivity.
    + exists LWorker. eexists. repeat split; [discriminate|].
      simpl. unfold run_step. rewrite Ew. reflexivity.
    + exists LComplete. destruct HC as (_ & _ & _ & l2 & _).
      eexists. repeat split; [discriminate|].
      simpl. unfold select_complete, try_recv. rewrite Em, l2, Ew. reflexivity.
    + destruct HW as (e & ? & _); congruence.
Qed.


(** ** What Start's result says about the run *)

Lemma returned_inv (w0 : World) s err :
  Inv w0 s -> main s = MReturned err ->
  (err = Some ErrTimeout /\ timer s = None /\ worker s <> WExit /\ worker s <> WNone)
  \/ (worker s = WExit /\ Finished w0 s err).
Proof.
  intros [HC HW] Em.
  assert (Hw : Waiting (main s) ->
               err = Some ErrTimeout /\ timer s = None).
  { intros [E|E]; rewrite Em in E; [discriminate|]. inversion E; subst.
    split; [reflexivity|].
    destruct HC as (_ & _ & _ & _ & _ & _ & Ht).
    destruct (timer s); [destruct Ht; congruence | reflexivity]. }
  unfold WorkerInv in HW.
  destruct (worker s) eqn:Ew.
  - destruct HW as [[?|[? _]] _]; congruence.
  - left. destruct HW as [Hm _]. destruct (Hw Hm). repeat split; auto; discriminate.
  - left. destruct HW as [Hm _]. destruct (Hw Hm). repeat split; auto; discriminate.
  - left. destruct HW as [Hm _]. destruct (Hw Hm). repeat split; auto; discriminate.
  - left. destruct HW as [Hm _]. destruct (Hw Hm). repeat split; auto; discriminate.
  - right. destruct HW as (e & E & HF). rewrite Em in E. inversion E; subst. auto.
Qed.

(** The shape of the history of polls: some that found nothing, then
    possibly one that found a signal. *)
Lemma checks_shape (w0 : World) s :
  Inv w0 s ->
  exists n seen, checks s = repeat false n ++ (if seen : bool then [true] else []).
Proof.
  intros [_ HW]. unfold WorkerInv, Finished, Ghost in HW.
  destruct (worker s) as [| | | |[[]|]|].
  - destruct HW as (_ & _ & Hc & _). eexists _, false; exact Hc.
  - destruct HW as (_ & _ & done & _ & _ & _ & Hc & _). eexists _, false; exact Hc.
  - destruct HW as (_ & _ & done & rest & _ & _ & _ & Hc & _).
    eexists _, true; exact Hc.
  - destruct HW as (_ & _ & done & _ & _ & _ & Hc & _). eexists _, false; exact Hc.
  - destruct HW as (_ & []).
  - destruct HW as (_ & _ & done & rest & _ & _ & _ & Hc & _).
    eexists _, true; exact Hc.
  - destruct HW as (_ & _ & _ & Hc & _). eexists _, false; exact Hc.
  - destruct HW as ([[]|] & _ & HF).
    + destruct HF.
    + destruct HF as (_ & done & rest & _ & _ & _ & Hc & _).
      eexists _, true; exact Hc.
    + destruct HF as (_ & _ & Hc & _). eexists _, false; exact Hc.
Qed.

Lemma In_true_repeat_false n : ~ In true (repeat false n).
Proof. intros H. apply repeat_spec in H. discriminate. Qed.

(** C1: for every list of registered tasks, in every execution in which no
    poll of r.interrupt has found a signal and the deadline timer has not
    fired: when Start has returned, it has returned nil, every task has been
    called exactly once, with its index in the list, in the order of the
    list, and the world is what these calls make of it; and Start does
    return: until it has, one of the goroutines can always move (without
    the timeout case), and the goroutines make at most 2N+4 moves in all.
    Tasks are total functions here: a task that never returns is outside
    this model. *)
Theorem Start_success d (w0 : World) batches sched s :
  exec sched (AddAll batches (New d w0)) = Some s ->
  timer s <> None ->
  ~ In true (checks s) ->
  (forall err, main s = MReturned err ->
     err = None /\
     invoked s = indexed 0 (concat batches) /\
     map fst (invoked s) = concat batches /\
     map snd (invoked s) = map Z.of_nat (seq 0 (length (concat batches))) /\
     world s = apply_all 0 (concat batches) w0) /\
  (returned s = false ->
     exists l s', program l = true /\ l <> LTimeout /\ step l s = Some s') /\
  program_steps sched <= 2 * length (concat batches) + 4.
Proof.
  intros He Ht Hc.
  pose proof (Inv_exec _ (Inv_New d w0 batches) He) as HI.
  pose proof (tasks_exec _ _ He) as HT.
  rewrite tasks_AddAll in HT. simpl in HT.
  split; [|split].
  - intros err Em.
    destruct (returned_inv HI Em) as [(_ & Hn & _)|[_ HF]]; [congruence|].
    destruct err as [[|]|]; simpl in HF.
    + destruct HF.
    + destruct HF as (_ & done & rest & _ & _ & _ & Hk & _).
      exfalso. apply Hc. rewrite Hk. apply in_or_app. right. now left.
    + destruct HF as (_ & Hi & _ & Hw). rewrite HT in *.
      repeat split; auto.
      * rewrite Hi. apply indexed_tasks.
      * rewrite Hi, indexed_positions. reflexivity.
  - intros Hr. exact (progress HI Hr).
  - pose proof (fuel_exec _ (Inv_New d w0 batches) He) as F.
    rewrite fuel_New in F. lia.
Qed.


(** ** A run that is going to be interrupted *)

(** A signal waits in r.interrupt and the loop still has a poll ahead of it,
    or the poll has happened; [calls] are the calls made so far. *)
Definition Doomed (calls : list (Task World * Z)) s : Prop :=
  invoked s = calls /\
  match worker s with
  | WNone => buf (interrupt (rn s)) <> [] /\ tasks (rn s) <> []
  | WLoop _ rest => buf (interrupt (rn s)) <> [] /\ rest <> []
  | WTask _ _ rest => buf (interrupt (rn s)) <> [] /\ rest <> []
  | WStop => True
  | WSend err => err = Some ErrInterrupt
  | WExit => main s = MReturned (Some ErrInterrupt)
  end.

Lemma try_send_keeps (A : Type) (v : A) (c : chan A) :
  buf c <> [] -> buf (try_send v c) <> [].
Proof.
  unfold try_send. destruct (has_room c); simpl; auto.
  destruct (buf c); simpl; [congruence | discriminate].
Qed.

Lemma relay_keeps sg s :
  buf (interrupt (rn s)) <> [] -> buf (interrupt (rn (relay sg s))) <> [].
Proof.
  unfold relay. destruct (_ && _); simpl; auto. apply try_send_keeps.
Qed.

Lemma Doomed_step l (w0 : World) calls s s' :
  Inv w0 s -> Doomed calls s -> step l s = Some s' -> Doomed calls s'.
Proof.
  intros [HC HW] [Hi HD] H. subst calls. unfold Doomed.
  destruct l; simpl in H.
  - inv_some. pose proof (@relay_keeps sg s) as K. revert K.
    unfold relay. destruct (_ && _); simpl; intros K; [|split; [reflexivity|assumption]].
    split; [reflexivity|].
    destruct (worker s); try exact HD; destruct HD; split; auto.
  - unfold fire in H. destruct (timer s); inv_some. simpl. split; [reflexivity|assumption].
  - unfold Start_step in H. unfold WorkerInv, Waiting in HW.
    destruct (main s) eqn:Em; inv_some; simpl.
    + split; [reflexivity|]. destruct (worker s); try exact HD. discriminate.
    + split; [reflexivity|].
      destruct (worker s); try exact HD;
        try (destruct HW as [[?|?] _]; discriminate).
      discriminate.
  - unfold select_complete in H. destruct (main s); try discriminate.
    destruct HC as (_ & _ & _ & l2 & _). unfold try_recv in H. rewrite l2 in H.
    destruct (worker s); inv_some. simpl. split; [reflexivity|]. now subst.
  - unfold select_timeout in H. destruct (main s); try discriminate.
    destruct (try_recv _) as [[]|]; inv_some. simpl.
    split; [reflexivity|].
    unfold WorkerInv in HW.
    destruct (worker s); try exact HD.
    destruct HW as (e & ? & _); congruence.
  - unfold run_step in H.
    destruct (worker s) as [|id [|t rest]| |id t rest|err|]; try discriminate.
    + destruct HD; congruence.
    + unfold try_recv in H. destruct HD as [Hb _].
      destruct (buf (interrupt (rn s))); [congruence|]. inv_some. simpl. auto.
    + inv_some. simpl. auto.
    + inv_some. simpl. auto.
    + destruct HC as (_ & _ & c2 & _). unfold has_room in H. rewrite c2 in H.
      simpl in H. discriminate.
Qed.

Lemma Doomed_exec sched (w0 : World) calls s s' :
  Inv w0 s -> Doomed calls s -> exec sched s = Some s' -> Doomed calls s'.
Proof.
  revert s; induction sched as [|l ls IH]; simpl; intros s HI HD H.
  - now inv_some.
  - destruct (step l s) eqn:E; [|discriminate].
    eauto using Inv_step, Doomed_step.
Qed.

(** The result of a run that was going to be interrupted. *)
Lemma Doomed_result (w0 : World) calls s err :
  Inv w0 s -> Doomed calls s -> main s = MReturned err ->
  err = Some ErrInterrupt \/ (err = Some ErrTimeout /\ timer s = None).
Proof.
  intros HI [_ HD] Em.
  destruct (returned_inv HI Em) as [(E & Ht & _)|[Ew _]]; [right; auto|].
  rewrite Ew in HD. left. congruence.
Qed.


Lemma firstn_prefix (A : Type) (l1 l2 : list A) : firstn (length l1) (l1 ++ l2) = l1.
Proof.
  rewrite <- (Nat.add_0_r (length l1)), firstn_app_2. simpl. apply app_nil_r.
Qed.


(** C3, amended: let a signal wait in r.interrupt while task k runs, or
    after it has returned and before the next poll, with a task k+1 still to
    come.  Then in every execution from there the calls made are exactly
    those of tasks 0 to k, each with its index; a result of Start is
    ErrInterrupt, or ErrTimeout and then the deadline timer has fired; and
    Start does return. *)
Theorem interrupt_between_tasks (w0 : World) s0 (k : nat) t rest sched s :
  Inv w0 s0 ->
  worker s0 = WTask (Z.of_nat k) t rest \/ worker s0 = WLoop (Z.of_nat k + 1) rest ->
  rest <> [] ->
  buf (interrupt (rn s0)) <> [] ->
  exec sched s0 = Some s ->
  invoked s = indexed 0 (firstn (S k) (tasks (rn s0))) /\
  map snd (invoked s) = map Z.of_nat (seq 0 (S k)) /\
  (forall err, main s = MReturned err ->
     err = Some ErrInterrupt \/ (err = Some ErrTimeout /\ timer s = None)) /\
  (returned s = false ->
     exists l s', program l = true /\ l <> LTimeout /\ step l s = Some s') /\
  program_steps sched + fuel s <= fuel s0.
Proof.
  intros HI Hw Hr Hb He.
  assert (Hcalls : invoked s0 = indexed 0 (firstn (S k) (tasks (rn s0))) /\
                   length (firstn (S k) (tasks (rn s0))) = S k).
  { destruct HI as [_ HW]. unfold WorkerInv, Ghost in HW.
    destruct Hw as [Ew|Ew]; rewrite Ew in HW.
    - destruct HW as (_ & _ & done & HT & Hid & Hi & _).
      apply Nat2Z.inj in Hid. subst k.
      assert (E : tasks (rn s0) = (done ++ [t]) ++ rest)
        by (rewrite <- app_assoc; exact HT).
      assert (L : length (done ++ [t]) = S (length done))
        by (rewrite length_app; simpl; lia).
      rewrite E, <- L, firstn_prefix. auto.
    - destruct HW as (_ & _ & done & HT & Hid & Hi & _).
      assert (L : length done = S k) by lia.
      rewrite HT, <- L, firstn_prefix. auto. }
  destruct Hcalls as [Hcalls Hlen].
  assert (HD : Doomed (invoked s0) s0).
  { unfold Doomed. split; [reflexivity|]. destruct Hw as [Ew|Ew]; rewrite Ew; auto. }
  pose proof (Inv_exec _ HI He) as HI'.
  pose proof (Doomed_exec _ HI HD He) as HD'.
  assert (Hi : invoked s = indexed 0 (firstn (S k) (tasks (rn s0))))
    by (destruct HD' as [-> _]; exact Hcalls).
  repeat split.
  - exact Hi.
  - rewrite Hi, indexed_positions, Hlen. reflexivity.
  - intros err E. eapply Doomed_result; eauto.
  - apply progress with (w0 := w0). exact HI'.
  - pose proof (fuel_exec _ HI He) as F. lia.
Qed.


(** ** A runner without tasks *)

(** The loop has nothing to do: it polls nothing and calls nothing, and a
    signal that waits in r.interrupt ([pending]) stays there. *)
Definition Idle (pending : bool) s : Prop :=
  checks s = [] /\ invoked s = [] /\ tasks (rn s) = [] /\
  (pending = true -> buf (interrupt (rn s)) <> []) /\
  match worker s with
  | WNone | WExit => True
  | WLoop _ rest => rest = []
  | WSend err => err = None
  | WStop | WTask _ _ _ => False
  end.

Lemma Idle_step l pending s s' : Idle pending s -> step l s = Some s' -> Idle pending s'.
Proof.
  intros (Hc & Hi & HT & Hp & Hw) H. unfold Idle.
  destruct l; simpl in H.
  - inv_some. pose proof (@relay_keeps sg s) as K. revert K.
    unfold relay. destruct (_ && _); simpl; intros K; repeat split; auto.
  - unfold fire in H. destruct (timer s); inv_some. simpl. repeat split; auto.
  - unfold Start_step in H. destruct (main s); inv_some; simpl; repeat split; auto.
  - unfold select_complete in H. destruct (main s); try discriminate.
    destruct (try_recv _) as [[]|].
    + inv_some. simpl. repeat split; auto.
    + destruct (worker s); inv_some. simpl. repeat split; auto.
  - unfold select_timeout in H. destruct (main s); try discriminate.
    destruct (try_recv _) as [[]|]; inv_some. simpl. repeat split; auto.
  - unfold run_step in H.
    destruct (worker s) as [|id [|t rest]| | | |]; try discriminate;
      try contradiction.
    + inv_some. simpl. repeat split; auto.
    + destruct (has_room _); inv_some. simpl. repeat split; auto.
Qed.

Lemma Idle_exec sched pending s s' :
  Idle pending s -> exec sched s = Some s' -> Idle pending s'.
Proof.
  revert s; induction sched as [|l ls IH]; simpl; intros s HI H.
  - now inv_some.
  - destruct (step l s) eqn:E; [|discriminate]. eauto using Idle_step.
Qed.

(** C4: with no task registered, in every execution the loop makes no poll
    of r.interrupt and no call, whether or not a signal waits in the
    channel, and such a signal is left there; the loop's only action is to
    return nil; so run's result is nil, and Start's result is nil, or
    ErrTimeout once the deadline timer has fired. *)
Theorem run_empty (w0 : World) s0 sched s :
  Inv w0 s0 ->
  main s0 = MInit ->
  tasks (rn s0) = [] ->
  exec sched s0 = Some s ->
  checks s = [] /\
  invoked s = [] /\
  (buf (interrupt (rn s0)) <> [] -> buf (interrupt (rn s)) <> []) /\
  (forall id rest, worker s = WLoop id rest ->
     step LWorker s = Some (with_worker (WSend None) s)) /\
  (forall err, worker s = WSend err -> err = None) /\
  (forall err, main s = MReturned err ->
     err = None \/ (err = Some ErrTimeout /\ timer s = None)).
Proof.
  intros HI Em HT He.
  assert (Hidle : forall p, (p = true -> buf (interrupt (rn s0)) <> []) -> Idle p s0).
  { intros p Hp. destruct HI as [_ HW]. unfold WorkerInv, Waiting, Ghost in HW.
    unfold Idle. destruct (worker s0);
      try (destruct HW as ([?|?] & _); congruence);
      try (destruct HW as (e & ? & _); congruence).
    destruct HW as (_ & Hi & Hc & _). repeat split; auto. }
  pose proof (Inv_exec _ HI He) as HI'.
  assert (H0 : Idle false s) by (eapply Idle_exec; eauto; apply Hidle; discriminate).
  destruct H0 as (Hc & Hi & HT' & _ & Hw).
  repeat split; auto.
  - intros Hb. assert (H1 : Idle true s) by (eapply Idle_exec; eauto).
    now apply H1.
  - intros id rest Ew. rewrite Ew in Hw. subst rest.
    simpl. unfold run_step. rewrite Ew. reflexivity.
  - intros err Ew. rewrite Ew in Hw. exact Hw.
  - intros err E.
    destruct (returned_inv HI' E) as [(? & ? & _)|[_ HF]]; [right; auto|left].
    destruct err as [[|]|]; simpl in HF; auto.
    + destruct HF.
    + destruct HF as (_ & done & rest & _ & _ & _ & Hk & _).
      rewrite Hc in Hk. destruct (repeat false (length done)); discriminate.
Qed.

(** ** The timeout case of the select *)

Lemma run_step_frame m (c : chan Time) s s1 :
  run_step s = Some s1 ->
  run_step (with_main m (with_timeout c s))
  = Some (with_main m (with_timeout c s1)).
Proof.
  unfold run_step. simpl.
  destruct (worker s) as [|id [|t rest]| | | |]; try discriminate; intros H.
  - now inv_some.
  - destruct (try_recv _) as [[]|]; now inv_some.
  - now inv_some.
  - now inv_some.
  - destruct (has_room _); now inv_some.
Qed.

(** C5, amended: when Start is in its select and the deadline timer has
    fired, the timeout case can be taken whatever the worker is doing; it
    makes Start return ErrTimeout and changes nothing else but the timeout
    channel: the worker is where it was and, if it could move, moves on
    exactly as it would have.  As long as run has not returned, the timeout
    case is the only one the select can take, and the abandoned worker can
    still move.  (When run has returned and the worker is at its send, the
    select may take either case.) *)
Theorem timeout_case (w0 : World) s :
  Inv w0 s ->
  main s = MSelect ->
  buf (timeout (rn s)) <> [] ->
  exists s',
    step LTimeout s = Some s' /\
    main s' = MReturned (Some ErrTimeout) /\
    worker s' = worker s /\ world s' = world s /\
    invoked s' = invoked s /\ checks s' = checks s /\
    subscribed s' = subscribed s /\
    interrupt (rn s') = interrupt (rn s) /\
    complete (rn s') = complete (rn s) /\
    tasks (rn s') = tasks (rn s) /\
    (forall s1, step LWorker s = Some s1 ->
       exists s1', step LWorker s' = Some s1' /\
         worker s1' = worker s1 /\ world s1' = world s1 /\
         invoked s1' = invoked s1 /\ checks s1' = checks s1 /\
         subscribed s1' = subscribed s1 /\ main s1' = main s') /\
    ((forall err, worker s <> WSend err) ->
       step LComplete s = None /\ exists s1, step LWorker s' = Some s1).
Proof.
  intros [HC HW] Em Hb. simpl. unfold select_timeout, try_recv. rewrite Em.
  destruct (buf (timeout (rn s))) as [|x q] eqn:Eb; [congruence|].
  eexists. split; [reflexivity|]. simpl. repeat split.
  - intros s1 H1. eexists. split; [apply run_step_frame; exact H1|].
    simpl. repeat split.
  - unfold select_complete, try_recv. rewrite Em.
    destruct HC as (_ & _ & _ & l2 & _). rewrite l2.
    destruct (worker s) eqn:Ew; try reflexivity. exfalso. now apply (H err).
  - unfold WorkerInv, Waiting in HW. unfold run_step. simpl.
    destruct (worker s) as [|id [|t rest]| | |err|] eqn:Ew.
    + destruct HW as [[?|[? _]] _]; congruence.
    + eauto.
    + destruct (try_recv _) as [[]|]; eauto.
    + eauto.
    + eauto.
    + exfalso. now apply (H err).
    + destruct HW as (e & ? & _); congruence.
Qed.

(** ** Registration *)

Lemma Add_nil s : Add [] s = s.
Proof. unfold Add, with_tasks. rewrite app_nil_r. now destruct s as [[] ]. Qed.

Lemma Add_app ts1 ts2 s : Add ts2 (Add ts1 s) = Add (ts1 ++ ts2) s.
Proof. unfold Add, with_tasks. simpl. now rewrite app_assoc. Qed.

(** C6: several calls of Add, one per batch, leave the runner in the very
    state that one call with the concatenation of the batches does, so that
    the task list is the old one followed by the batches in order and every
    schedule has the same outcome from both; Add of two batches in turn is
    Add of their concatenation; Add without arguments changes nothing. *)
Theorem Add_homomorphism batches ts1 ts2 s :
  AddAll batches s = Add (concat batches) s /\
  tasks (rn (AddAll batches s)) = tasks (rn s) ++ concat batches /\
  (forall sched, exec sched (AddAll batches s) = exec sched (Add (concat batches) s)) /\
  Add ts2 (Add ts1 s) = Add (ts1 ++ ts2) s /\
  Add [] s = s.
Proof.
  assert (E : AddAll batches s = Add (concat batches) s)
    by (rewrite AddAll_frame; reflexivity).
  repeat split.
  - exact E.
  - apply tasks_AddAll.
  - intros sched. now rewrite E.
  - apply Add_app.
  - apply Add_nil.
Qed.


(** ** The subscription *)

Lemma unsubscribe_step l s s' :
  step l s = Some s' -> subscribed s = true -> subscribed s' = false ->
  l = LWorker /\ worker s = WStop /\ worker s' = WSend (Some ErrInterrupt).
Proof.
  destruct l; simpl; intros H Ht Hf.
  - inv_some. unfold relay in Hf. destruct (_ && _); simpl in Hf; congruence.
  - unfold fire in H. destruct (timer s); inv_some. simpl in Hf. congruence.
  - unfold Start_step in H. destruct (main s); inv_some; simpl in Hf; congruence.
  - unfold select_complete in H. destruct (main s); try discriminate.
    destruct (try_recv _) as [[]|]; [inv_some; simpl in Hf; congruence|].
    destruct (worker s); inv_some. simpl in Hf. congruence.
  - unfold select_timeout in H. destruct (main s); try discriminate.
    destruct (try_recv _) as [[]|]; inv_some. simpl in Hf. congruence.
  - unfold run_step in H.
    destruct (worker s) as [|id [|t rest]| | | |]; try discriminate;
      try (inv_some; simpl in Hf; congruence).
    + destruct (try_recv _) as [[]|]; inv_some; simpl in Hf; congruence.
    + inv_some. auto.
    + destruct (has_room _); inv_some. simpl in Hf. congruence.
Qed.

Lemma select_keeps_subscription l s s' :
  step l s = Some s' -> l = LTimeout \/ l = LComplete ->
  subscribed s' = subscribed s.
Proof.
  intros H [->| ->]; simpl in H.
  - unfold select_timeout in H. destruct (main s); try discriminate.
    destruct (try_recv _) as [[]|]; now inv_some.
  - unfold select_complete in H. destruct (main s); try discriminate.
    destruct (try_recv _) as [[]|]; [now inv_some|].
    destruct (worker s); now inv_some.
Qed.

Lemma unsubscribed_inv (w0 : World) s :
  Inv w0 s -> main s <> MInit -> subscribed s = false ->
  In true (checks s) /\
  (worker s = WSend (Some ErrInterrupt) \/
   worker s = WExit /\ main s = MReturned (Some ErrInterrupt)).
Proof.
  intros [_ HW] Hm Hs. unfold WorkerInv, Finished, Ghost in HW.
  destruct (worker s) as [| | | |[[]|]|].
  - destruct HW as [[?|[_ ?]] _]; congruence.
  - destruct HW as (_ & ? & _); congruence.
  - destruct HW as (_ & ? & _); congruence.
  - destruct HW as (_ & ? & _); congruence.
  - destruct HW as (_ & []).
  - destruct HW as (_ & _ & done & rest & _ & _ & _ & Hc & _).
    split; [|left; reflexivity].
    rewrite Hc. apply in_or_app. right. now left.
  - destruct HW as (_ & ? & _); congruence.
  - destruct HW as ([[]|] & Em & HF).
    + destruct HF.
    + destruct HF as (_ & done & rest & _ & _ & _ & Hc & _).
      split; [|right; auto].
      rewrite Hc. apply in_or_app. right. now left.
    + destruct HF as (? & _); congruence.
Qed.

(** C7, amended: in every execution the only action that ends the
    subscription is the signal.Stop the worker does after its poll has
    received a signal, on its way to returning ErrInterrupt; neither case
    of Start's select touches the subscription.  So when Start has returned
    nil the subscription is live, when it has returned ErrInterrupt it has
    ended, and when it has returned ErrTimeout it is live unless the worker
    has received a signal and stopped the subscription. *)
Theorem unsubscribe_only_in_loop d (w0 : World) batches sched s :
  exec sched (AddAll batches (New d w0)) = Some s ->
  (forall l s', step l s = Some s' ->
     subscribed s = true -> subscribed s' = false ->
     l = LWorker /\ worker s = WStop /\ worker s' = WSend (Some ErrInterrupt)) /\
  (forall l s', step l s = Some s' -> l = LTimeout \/ l = LComplete ->
     subscribed s' = subscribed s) /\
  (main s = MReturned None -> subscribed s = true) /\
  (main s = MReturned (Some ErrInterrupt) -> subscribed s = false) /\
  (main s = MReturned (Some ErrTimeout) ->
     subscribed s = true \/
     (worker s = WSend (Some ErrInterrupt) /\ In true (checks s))).
Proof.
  intros He.
  pose proof (Inv_exec _ (Inv_New d w0 batches) He) as HI.
  split; [|split; [|split; [|split]]].
  - intros l s'. apply unsubscribe_step.
  - intros l s'. apply select_keeps_subscription.
  - intros Em. destruct (returned_inv HI Em) as [(? & _)|[_ HF]]; [discriminate|].
    apply HF.
  - intros Em. destruct (returned_inv HI Em) as [(? & _)|[_ HF]]; [discriminate|].
    apply HF.
  - intros Em. destruct (subscribed s) eqn:Es; [left; reflexivity|right].
    assert (Hm : main s <> MInit) by congruence.
    destruct (unsubscribed_inv HI Hm Es) as [Hc [Hw|[_ Hw]]]; [auto|congruence].
Qed.

(** ** The signals a run can see *)

(** The operating system raises the signals [sigs] one after the other. *)
Definition raise (sigs : list Signal) s : Sys World :=
  fold_left (fun acc sg => relay sg acc) sigs s.

Lemma raise_unsubscribed sigs s : subscribed s = false -> raise sigs s = s.
Proof.
  unfold raise. induction sigs as [|sg r IH]; simpl; intros Hs; [reflexivity|].
  unfold relay at 2. rewrite Hs. simpl. now apply IH.
Qed.

Lemma gotInterrupt_again s sigs :
  length (buf (interrupt (rn s))) <= 1 ->
  fst (gotInterrupt s) = true ->
  buf (interrupt (rn (snd (gotInterrupt s)))) = [] /\
  subscribed (snd (gotInterrupt s)) = false /\
  fst (gotInterrupt (raise sigs (snd (gotInterrupt s)))) = false.
Proof.
  unfold gotInterrupt at 1 2 3 5. unfold try_recv.
  destruct (buf (interrupt (rn s))) as [|x [|y q]] eqn:Eb; simpl;
    intros Hl Ht; try discriminate; try lia.
  repeat split. rewrite raise_unsubscribed by reflexivity.
  unfold gotInterrupt, try_recv. simpl. reflexivity.
Qed.

Lemma one_true_last n (before after : list bool) :
  repeat false n ++ [true] = before ++ true :: after ->
  after = [] /\ before = repeat false n.
Proof.
  revert before; induction n as [|n IH]; simpl; intros [|b bs] E; simpl in E.
  - inversion E. auto.
  - inversion E as [[Eb E']]. now destruct bs.
  - discriminate.
  - inversion E as [[Eb E']]. destruct (IH _ E') as [-> ->]. auto.
Qed.

(** An interrupt is raised while the worker is between the receive of
    gotInterrupt and its signal.Stop. *)
Definition in_window (l : Label) s : bool :=
  match l, worker s with
  | LSignal Interrupt, WStop => true
  | _, _ => false
  end.

(** No label of the schedule, run from [s], is an interrupt in that window. *)
Fixpoint window_free (sched : list Label) s : bool :=
  match sched with
  | [] => true
  | l :: ls =>
      negb (in_window l s) &&
      match step l s with
      | Some s' => window_free ls s'
      | None => true
      end
  end.

(** Once a poll has found a signal the worker is before its signal.Stop or
    the subscription has ended. *)
Lemma seen_inv (w0 : World) s :
  Inv w0 s -> In true (checks s) -> worker s = WStop \/ subscribed s = false.
Proof.
  intros [_ HW] Hc. unfold WorkerInv, Finished, Ghost in HW.
  assert (N : forall n, checks s = repeat false n ++ [] -> False).
  { intros n E. rewrite E, app_nil_r in Hc. now apply In_true_repeat_false in Hc. }
  destruct (worker s) as [| | | |[[]|]|].
  - destruct HW as (_ & _ & E & _). destruct (N _ E).
  - destruct HW as (_ & _ & done & _ & _ & _ & E & _). destruct (N _ E).
  - left. reflexivity.
  - destruct HW as (_ & _ & done & _ & _ & _ & E & _). destruct (N _ E).
  - destruct HW as (_ & []).
  - right. apply HW.
  - destruct HW as (_ & _ & _ & E & _). destruct (N _ E).
  - destruct HW as ([[]|] & _ & HF).
    + destruct HF.
    + right. apply HF.
    + destruct HF as (_ & _ & E & _). destruct (N _ E).
Qed.

Lemma consumed_step l (w0 : World) s s' :
  Inv w0 s ->
  (In true (checks s) -> buf (interrupt (rn s)) = []) ->
  in_window l s = false ->
  step l s = Some s' ->
  In true (checks s') -> buf (interrupt (rn s')) = [].
Proof.
  intros HI K Hwin H. destruct l; simpl in H.
  - inv_some. unfold relay.
    destruct (subscribed s && Signal_eqb sg Interrupt) eqn:E; simpl; [|exact K].
    intros Hc. exfalso. apply andb_prop in E as [Es Eg].
    destruct sg; [|discriminate].
    destruct (seen_inv HI Hc) as [Ew|Ef]; [|congruence].
    unfold in_window in Hwin. rewrite Ew in Hwin. discriminate.
  - unfold fire in H. destruct (timer s); inv_some. exact K.
  - unfold Start_step in H. destruct (main s); inv_some; exact K.
  - unfold select_complete in H. destruct (main s); try discriminate.
    destruct (try_recv _) as [[]|]; [inv_some; exact K|].
    destruct (worker s); inv_some. exact K.
  - unfold select_timeout in H. destruct (main s); try discriminate.
    destruct (try_recv _) as [[]|]; inv_some. exact K.
  - unfold run_step in H.
    destruct (worker s) as [|id [|t rest]| | | |]; try discriminate;
      try (inv_some; exact K).
    + unfold try_recv in H.
      destruct (buf (interrupt (rn s))) as [|x q] eqn:Eb; inv_some; simpl.
      * intros _. exact Eb.
      * intros _. destruct HI as [(_ & l1 & _) _]. rewrite Eb in l1. simpl in l1.
        destruct q; [reflexivity|simpl in l1; lia].
    + destruct (has_room _); inv_some. exact K.
Qed.

Lemma consumed_exec sched (w0 : World) s s' :
  Inv w0 s ->
  (In true (checks s) -> buf (interrupt (rn s)) = []) ->
  window_free sched s = true ->
  exec sched s = Some s' ->
  In true (checks s') -> buf (interrupt (rn s')) = [].
Proof.
  revert s; induction sched as [|l ls IH]; simpl; intros s HI K Hw H.
  - now inv_some.
  - destruct (step l s) as [s1|] eqn:E; [|discriminate].
    apply andb_prop in Hw as [Hw1 Hw2]. apply negb_true_iff in Hw1.
    apply (IH s1); auto.
    + eapply Inv_step; eauto.
    + eapply consumed_step; eauto.
Qed.

(** C8, amended: in every execution, once a poll of r.interrupt has found a
    signal no later poll of the run finds one and no earlier poll found
    one, so at most one poll of a run finds a signal (run returns right
    after it).  And when no interrupt was raised between the receive of
    that poll and its signal.Stop, then once the poll is over r.interrupt
    is empty and the subscription has ended, so that a gotInterrupt called
    then, or after any further signals, returns false.  So does a
    gotInterrupt called right after one that ran from its receive to its
    return with nothing in between and returned true.  (Start is called
    once.) *)
Theorem interrupt_consumed_once d (w0 : World) batches sched s :
  exec sched (AddAll batches (New d w0)) = Some s ->
  (forall before after, checks s = before ++ true :: after ->
     after = [] /\ Forall (fun b => b = false) before) /\
  count_occ bool_dec (checks s) true <= 1 /\
  (window_free sched (AddAll batches (New d w0)) = true ->
   In true (checks s) -> worker s <> WStop ->
     buf (interrupt (rn s)) = [] /\
     subscribed s = false /\
     forall sigs, fst (gotInterrupt (raise sigs s)) = false) /\
  (fst (gotInterrupt s) = true ->
     forall sigs, fst (gotInterrupt (raise sigs (snd (gotInterrupt s)))) = false).
Proof.
  intros He.
  pose proof (Inv_New d w0 batches) as HI0.
  pose proof (Inv_exec _ HI0 He) as HI.
  destruct (checks_shape HI) as (n & seen & Hc).
  assert (Hrep : Forall (fun b => b = false) (repeat false n))
    by (apply Forall_forall; intros b Hb; now apply repeat_spec in Hb).
  split; [|split; [|split]].
  - intros before after E. rewrite Hc in E.
    destruct seen.
    + destruct (one_true_last _ _ _ E) as [-> ->]. auto.
    + exfalso. rewrite app_nil_r in E.
      assert (K : In true (repeat false n))
        by (rewrite E; apply in_or_app; right; now left).
      now apply In_true_repeat_false in K.
  - rewrite Hc, count_occ_app.
    assert (Z0 : count_occ bool_dec (repeat false n) true = 0).
    { apply count_occ_not_In. apply In_true_repeat_false. }
    rewrite Z0. destruct seen; simpl; lia.
  - intros Hw Hs Hn.
    assert (K0 : In true (checks (AddAll batches (New d w0))) ->
                 buf (interrupt (rn (AddAll batches (New d w0)))) = [])
      by (rewrite AddAll_frame; simpl; intros []).
    pose proof (consumed_exec _ HI0 K0 Hw He Hs) as Hb.
    destruct (seen_inv HI Hs) as [Ew|Ef]; [congruence|].
    split; [exact Hb|]. split; [exact Ef|].
    intros sigs. rewrite raise_unsubscribed by exact Ef.
    unfold gotInterrupt, try_recv. rewrite Hb. reflexivity.
  - intros Ht sigs. apply gotInterrupt_again; [|exact Ht].
    apply HI.
Qed.


(** ** The worker that Start has left behind *)

Lemma orphan_step l (w0 : World) s s' :
  Inv w0 s -> main s = MReturned (Some ErrTimeout) -> step l s = Some s' ->
  main s' = MReturned (Some ErrTimeout) /\
  (forall err, worker s = WSend err -> worker s' = WSend err).
Proof.
  intros [HC HW] Em H. destruct l; simpl in H.
  - inv_some. unfold relay. destruct (_ && _); simpl; auto.
  - unfold fire in H. destruct (timer s); inv_some. simpl. auto.
  - unfold Start_step in H. rewrite Em in H. discriminate.
  - unfold select_complete in H. rewrite Em in H. discriminate.
  - unfold select_timeout in H. rewrite Em in H. discriminate.
  - unfold run_step in H.
    destruct (worker s) as [|id [|t rest]| | |e|]; try discriminate;
      try (inv_some; simpl; split; [assumption|discriminate]).
    + destruct (try_recv _) as [[]|]; inv_some; simpl;
        (split; [assumption|discriminate]).
    + destruct HC as (_ & _ & c2 & _). unfold has_room in H. rewrite c2 in H.
      simpl in H. discriminate.
Qed.

Lemma orphan_exec sched (w0 : World) s s' :
  Inv w0 s -> main s = MReturned (Some ErrTimeout) -> exec sched s = Some s' ->
  main s' = MReturned (Some ErrTimeout) /\
  worker s' <> WExit /\
  (forall err, worker s = WSend err -> worker s' = WSend err).
Proof.
  revert s; induction sched as [|l ls IH]; simpl; intros s HI Em H.
  - inv_some. repeat split; auto.
    destruct (returned_inv HI Em) as [(_ & _ & ? & _)|[_ []]]. assumption.
  - destruct (step l s) as [s1|] eqn:E; [|discriminate].
    destruct (orphan_step _ HI Em E) as [Em1 Hs1].
    destruct (IH _ (Inv_step _ HI E) Em1 H) as (? & ? & Hs).
    repeat split; auto.
Qed.

Lemma blocked_send (w0 : World) s err :
  Inv w0 s -> main s = MReturned (Some ErrTimeout) -> worker s = WSend err ->
  step LWorker s = None /\ step LComplete s = None.
Proof.
  intros [HC _] Em Ew. simpl. unfold run_step, select_complete, has_room.
  destruct HC as (_ & _ & c2 & _). rewrite Ew, Em, c2. auto.
Qed.

(** C9, amended: after Start has returned ErrTimeout the worker it left
    behind never ends.  In every execution from there Start's result
    stands; as long as the worker is not at its send it can move, so it goes
    on polling and calling tasks; once run has returned and the worker is at
    [r.complete <- err] it stays there for ever, since the channel has no
    buffer and nobody receives: neither the worker nor the select can
    move. *)
Theorem orphan_never_ends (w0 : World) s sched s' :
  Inv w0 s ->
  main s = MReturned (Some ErrTimeout) ->
  exec sched s = Some s' ->
  main s' = MReturned (Some ErrTimeout) /\
  worker s' <> WExit /\
  (forall err, worker s = WSend err -> worker s' = WSend err) /\
  (forall err, worker s' = WSend err ->
     step LWorker s' = None /\ step LComplete s' = None) /\
  ((forall err, worker s' <> WSend err) -> exists s1, step LWorker s' = Some s1).
Proof.
  intros HI Em He.
  destruct (orphan_exec _ HI Em He) as (Em' & Hne & Hs).
  pose proof (Inv_exec _ HI He) as HI'.
  repeat split; auto.
  - eapply blocked_send; eauto.
  - eapply blocked_send; eauto.
  - intros Hns. destruct HI' as [_ HW]. unfold WorkerInv in HW.
    simpl. unfold run_step.
    destruct (worker s') as [|id [|t rest]| | |err|] eqn:Ew.
    + destruct HW as [[?|[? _]] _]; congruence.
    + eauto.
    + destruct (try_recv _) as [[]|]; eauto.
    + eauto.
    + eauto.
    + exfalso. now apply (Hns err).
    + congruence.
Qed.

(** ** The buffer of r.interrupt *)

Lemma try_send_idem (A : Type) (v : A) (c : chan A) :
  cap c = 1 -> try_send v (try_send v c) = try_send v c.
Proof.
  destruct c as [b n]. simpl. intros ->.
  destruct b as [|x [|y q]]; reflexivity.
Qed.

Lemma relay_idem sg s :
  cap (interrupt (rn s)) = 1 ->
  relay sg (relay sg s) = relay sg s.
Proof.
  intros Hc. unfold relay at 2 3.
  destruct (subscribed s && Signal_eqb sg Interrupt) eqn:E.
  - unfold relay. simpl. rewrite E.
    unfold with_interrupt. simpl. now rewrite try_send_idem.
  - unfold relay. now rewrite E.
Qed.

Lemma raise_many sg n s :
  cap (interrupt (rn s)) = 1 ->
  exec (repeat (LSignal sg) (S n)) s = Some (relay sg s).
Proof.
  intros Hc. induction n as [|n IH]; [reflexivity|].
  rewrite <- repeat_snoc, exec_app, IH. simpl. now rewrite relay_idem.
Qed.

(** C10: New makes r.interrupt with room for one signal, and in every
    execution the channel has capacity 1 and holds at most one signal.  Any
    number (one or more) of interrupts raised in a row leaves the system in
    the very state one interrupt does, the others being dropped; if the
    channel is subscribed it then holds exactly one signal, the next
    gotInterrupt returns true and empties it, and the one after that
    returns false. *)
Theorem interrupt_buffer_of_one d (w0 : World) batches sched s n :
  exec sched (AddAll batches (New d w0)) = Some s ->
  cap (interrupt (rn (New d w0))) = 1 /\
  cap (interrupt (rn s)) = 1 /\
  length (buf (interrupt (rn s))) <= 1 /\
  exec (repeat (LSignal Interrupt) (S n)) s = Some (relay Interrupt s) /\
  (subscribed s = true ->
     length (buf (interrupt (rn (relay Interrupt s)))) = 1 /\
     fst (gotInterrupt (relay Interrupt s)) = true /\
     buf (interrupt (rn (snd (gotInterrupt (relay Interrupt s))))) = [] /\
     fst (gotInterrupt (snd (gotInterrupt (relay Interrupt s)))) = false).
Proof.
  intros He.
  pose proof (Inv_exec _ (Inv_New d w0 batches) He) as HI.
  destruct HI as [(c1 & l1 & _) _].
  split; [reflexivity|]. split; [exact c1|]. split; [exact l1|].
  split; [now apply raise_many|].
  intros Hs. unfold relay. rewrite Hs. simpl.
  unfold gotInterrupt, try_recv, try_send, has_room. simpl. rewrite c1.
  destruct (buf (interrupt (rn s))) as [|x [|y q]] eqn:Eb; simpl in *;
    rewrite ?Eb; simpl; auto; lia.
Qed.


(** ** gotInterrupt inside run *)

Lemma Inv_preload sg (w0 : World) s : Inv w0 s -> Inv w0 (preload sg s).
Proof.
  intros [HC HW]. split; [|exact HW].
  destruct HC as (c1 & l1 & HC). unfold ChanInv, preload, try_send, has_room; simpl.
  rewrite c1.
  destruct (buf (interrupt (rn s))) as [|x [|y q]] eqn:E; simpl in *;
    rewrite ?E; simpl; repeat split; try lia; try apply HC; auto.
Qed.

(** The two actions the worker makes of a poll that receives, and the one it
    makes of a poll that does not, add up to the call of gotInterrupt. *)
Lemma run_step_gotInterrupt s id t rest :
  worker s = WLoop id (t :: rest) ->
  if fst (gotInterrupt s)
  then exec [LWorker; LWorker] s
       = Some (with_worker (WSend (Some ErrInterrupt)) (snd (gotInterrupt s)))
  else exec [LWorker] s
       = Some (with_worker (WTask id t rest) (log_call t id (snd (gotInterrupt s)))).
Proof.
  intros Ew. unfold gotInterrupt. simpl. unfold run_step. rewrite Ew.
  destruct (try_recv (interrupt (rn s))) as [[x c]|]; reflexivity.
Qed.


(** ** run as a whole and run one action at a time *)

(** Left alone, the worker gets from the head of the loop to its send with
    the result and the state that [run_loop] computes. *)
Lemma run_loop_steps ts id s :
  exists n,
    exec (repeat LWorker n) (with_worker (WLoop id ts) s)
    = Some (with_worker (WSend (fst (run_loop id ts s))) (snd (run_loop id ts s))).
Proof.
  revert id s; induction ts as [|t rest IH]; intros id s.
  - exists 1. reflexivity.
  - simpl run_loop. unfold gotInterrupt.
    destruct (try_recv (interrupt (rn s))) as [[x c]|] eqn:E.
    + exists 2. simpl. unfold run_step. simpl. rewrite E. reflexivity.
    + destruct (IH (id + 1)%Z
                  (with_world (t id (world s)) (log_call t id (log_check false s))))
        as [n Hn].
      exists (S (S n)). simpl. unfold run_step at 1. simpl. rewrite E.
      unfold run_step at 1. simpl. exact Hn.
Qed.

Lemma run_steps s :
  exists n,
    exec (repeat LWorker n) (with_worker (WLoop 0 (tasks (rn s))) s)
    = Some (with_worker (WSend (fst (run s))) (snd (run s))).
Proof. apply run_loop_steps. Qed.


(** * More properties of the runner *)

Lemma tasks_run d (w0 : World) batches sched s :
  exec sched (AddAll batches (New d w0)) = Some s ->
  tasks (rn s) = concat batches.
Proof.
  intros He. rewrite (tasks_exec _ _ He), tasks_AddAll. reflexivity.
Qed.

(** ** The calls of a run *)

(** X1: in every execution, whatever signals arrive and whenever the timer
    fires, the calls made so far are the first tasks of the list, each once,
    in order and with its index: no task is skipped, repeated or called out
    of turn.  The world is what the calls that have returned made of it:
    all of them, or all but the last while that one is running. *)
Theorem calls_are_a_prefix d (w0 : World) batches sched s :
  exec sched (AddAll batches (New d w0)) = Some s ->
  length (invoked s) <= length (concat batches) /\
  invoked s = indexed 0 (firstn (length (invoked s)) (concat batches)) /\
  match worker s with
  | WTask id t _ =>
      Z.of_nat (length (invoked s)) = (id + 1)%Z /\
      world s = apply_all 0 (firstn (length (invoked s) - 1) (concat batches)) w0
  | _ =>
      world s = apply_all 0 (firstn (length (invoked s)) (concat batches)) w0
  end.
Proof.
  intros He.
  pose proof (Inv_exec _ (Inv_New d w0 batches) He) as [_ HW].
  rewrite <- (tasks_run _ _ _ _ He).
  assert (P : forall done rest,
             tasks (rn s) = done ++ rest -> invoked s = indexed 0 done ->
             length (invoked s) <= length (tasks (rn s)) /\
             invoked s = indexed 0 (firstn (length (invoked s)) (tasks (rn s))) /\
             firstn (length (invoked s)) (tasks (rn s)) = done).
  { intros done rest HT Hi. rewrite Hi, indexed_length, HT, firstn_prefix.
    rewrite length_app. repeat split; lia. }
  unfold WorkerInv, Finished, Ghost in HW.
  destruct (worker s) as [|id rest| |id t rest|[[]|]|].
  - destruct HW as (_ & Hi & _ & Hw).
    destruct (P [] (tasks (rn s)) eq_refl Hi) as (L & I & F).
    rewrite F. auto.
  - destruct HW as (_ & _ & done & HT & _ & Hi & _ & Hw).
    destruct (P done rest HT Hi) as (L & I & F). rewrite F. auto.
  - destruct HW as (_ & _ & done & rest & HT & _ & Hi & _ & Hw).
    destruct (P done rest HT Hi) as (L & I & F). rewrite F. auto.
  - destruct HW as (_ & _ & done & HT & Hid & Hi & _ & Hw).
    assert (HT' : tasks (rn s) = (done ++ [t]) ++ rest)
      by (rewrite <- app_assoc; exact HT).
    destruct (P (done ++ [t]) rest HT' Hi) as (L & I & F).
    split; [exact L|]. split; [exact I|].
    assert (K : length (invoked s) = S (length done))
      by (rewrite Hi, indexed_length, length_app; simpl; lia).
    split; [lia|].
    rewrite K. simpl. rewrite Nat.sub_0_r, HT, firstn_prefix. exact Hw.
  - destruct HW as (_ & []).
  - destruct HW as (_ & _ & done & rest & HT & _ & Hi & _ & Hw).
    destruct (P done rest HT Hi) as (L & I & F). rewrite F. auto.
  - destruct HW as (_ & _ & Hi & _ & Hw).
    assert (HT : tasks (rn s) = tasks (rn s) ++ []) by now rewrite app_nil_r.
    destruct (P _ _ HT Hi) as (L & I & F). rewrite F. auto.
  - destruct HW as ([[]|] & _ & HF).
    + destruct HF.
    + destruct HF as (_ & done & rest & HT & _ & Hi & _ & Hw).
      destruct (P done rest HT Hi) as (L & I & F). rewrite F. auto.
    + destruct HF as (_ & Hi & _ & Hw).
      assert (HT : tasks (rn s) = tasks (rn s) ++ []) by now rewrite app_nil_r.
      destruct (P _ _ HT Hi) as (L & I & F). rewrite F. auto.
Qed.

(** X7: the loop polls r.interrupt exactly once before each call: in every
    execution the polls that found nothing are as many as the calls made,
    and the only other poll there can be is the one that found a signal,
    after which there is no call. *)
Theorem one_poll_per_call d (w0 : World) batches sched s :
  exec sched (AddAll batches (New d w0)) = Some s ->
  checks s = repeat false (length (invoked s)) \/
  checks s = repeat false (length (invoked s)) ++ [true].
Proof.
  intros He.
  pose proof (Inv_exec _ (Inv_New d w0 batches) He) as [_ HW].
  unfold WorkerInv, Finished, Ghost in HW.
  destruct (worker s) as [|id rest| |id t rest|[[]|]|].
  - destruct HW as (_ & Hi & Hc & _). left.
    now rewrite Hc, Hi, app_nil_r.
  - destruct HW as (_ & _ & done & _ & _ & Hi & Hc & _). left.
    now rewrite Hc, Hi, indexed_length, app_nil_r.
  - destruct HW as (_ & _ & done & rest & _ & _ & Hi & Hc & _). right.
    now rewrite Hc, Hi, indexed_length.
  - destruct HW as (_ & _ & done & _ & _ & Hi & Hc & _). left.
    now rewrite Hc, Hi, indexed_length, app_nil_r.
  - destruct HW as (_ & []).
  - destruct HW as (_ & _ & done & rest & _ & _ & Hi & Hc & _). right.
    now rewrite Hc, Hi, indexed_length.
  - destruct HW as (_ & _ & Hi & Hc & _). left.
    now rewrite Hc, Hi, indexed_length, app_nil_r.
  - destruct HW as ([[]|] & _ & HF).
    + destruct HF.
    + destruct HF as (_ & done & rest & _ & _ & Hi & Hc & _). right.
      now rewrite Hc, Hi, indexed_length.
    + destruct HF as (_ & Hi & Hc & _). left.
      now rewrite Hc, Hi, indexed_length, app_nil_r.
Qed.


(** ** What each result of Start means *)

(** X2: whatever the schedule, a result of Start tells what has happened.
    nil: every task has been called and has returned, no poll found a
    signal, and the subscription is live.  ErrInterrupt: a poll found a
    signal, the tasks called are a proper initial part of the list (at
    least one task was not called), all of them have returned, and the
    subscription has ended.  ErrTimeout: the deadline timer has fired. *)
Theorem Start_result_sound d (w0 : World) batches sched s err :
  exec sched (AddAll batches (New d w0)) = Some s ->
  main s = MReturned err ->
  match err with
  | None =>
      invoked s = indexed 0 (concat batches) /\
      world s = apply_all 0 (concat batches) w0 /\
      ~ In true (checks s) /\
      subscribed s = true
  | Some ErrInterrupt =>
      In true (checks s) /\
      subscribed s = false /\
      exists done rest,
        concat batches = done ++ rest /\ rest <> [] /\
        invoked s = indexed 0 done /\
        world s = apply_all 0 done w0
  | Some ErrTimeout => timer s = None
  end.
Proof.
  intros He Em.
  pose proof (Inv_exec _ (Inv_New d w0 batches) He) as HI.
  rewrite <- (tasks_run _ _ _ _ He).
  destruct (returned_inv HI Em) as [(-> & Ht & _)|[_ HF]]; [exact Ht|].
  unfold Finished, Ghost in HF. destruct err as [[|]|].
  - destruct HF.
  - destruct HF as (Hs & done & rest & HT & Hr & Hi & Hc & Hw).
    split; [rewrite Hc; apply in_or_app; right; now left|].
    split; [exact Hs|]. exists done, rest. auto.
  - destruct HF as (Hs & Hi & Hc & Hw). repeat split; auto.
    rewrite Hc, app_nil_r. apply In_true_repeat_false.
Qed.

(** X10: the worker goroutine has ended exactly when Start has returned
    the result of run, nil or ErrInterrupt: its send on the unbuffered
    r.complete completes only together with the receive of the select, and
    nothing is ever left in the channel. *)
Theorem worker_ends_iff_delivered d (w0 : World) batches sched s :
  exec sched (AddAll batches (New d w0)) = Some s ->
  (worker s = WExit <->
   main s = MReturned None \/ main s = MReturned (Some ErrInterrupt)) /\
  buf (complete (rn s)) = [].
Proof.
  intros He.
  pose proof (Inv_exec _ (Inv_New d w0 batches) He) as HI.
  split; [|apply HI]. split.
  - intros Ew. destruct HI as [_ HW]. unfold WorkerInv in HW. rewrite Ew in HW.
    destruct HW as ([[]|] & Em & HF); auto. destruct HF.
  - intros [Em|Em];
      (destruct (returned_inv HI Em) as [(? & _)|[Ew _]]; [discriminate|exact Ew]).
Qed.

(** X3: Start always returns, whatever signals arrive and whenever the
    timer fires: in every execution, as long as Start has not returned one
    of the two goroutines can move without the timeout case, and the two
    goroutines make at most 2N+4 moves in all, N being the number of
    tasks.  (Tasks are total functions here.) *)
Theorem Start_terminates d (w0 : World) batches sched s :
  exec sched (AddAll batches (New d w0)) = Some s ->
  (returned s = false ->
     exists l s', program l = true /\ l <> LTimeout /\ step l s = Some s') /\
  program_steps sched + fuel s <= 2 * length (concat batches) + 4.
Proof.
  intros He.
  pose proof (Inv_exec _ (Inv_New d w0 batches) He) as HI.
  split; [apply progress with (w0 := w0); exact HI|].
  pose proof (fuel_exec _ (Inv_New d w0 batches) He) as F.
  rewrite fuel_New in F. lia.
Qed.

(** ** Which signals a run sees *)

Lemma quiet_step l s s' :
  l <> LSignal Interrupt ->
  buf (interrupt (rn s)) = [] /\ ~ In true (checks s) ->
  step l s = Some s' ->
  buf (interrupt (rn s')) = [] /\ ~ In true (checks s').
Proof.
  intros Hl [Hb Hc] H. destruct l; simpl in H.
  - inv_some. unfold relay. destruct sg; [congruence|].
    rewrite andb_false_r. auto.
  - unfold fire in H. destruct (timer s); inv_some. simpl. auto.
  - unfold Start_step in H. destruct (main s); inv_some; simpl; auto.
  - unfold select_complete in H. destruct (main s); try discriminate.
    destruct (try_recv _) as [[]|]; [inv_some; simpl; auto|].
    destruct (worker s); inv_some. simpl. auto.
  - unfold select_timeout in H. destruct (main s); try discriminate.
    destruct (try_recv _) as [[]|]; inv_some. simpl. auto.
  - unfold run_step in H.
    destruct (worker s) as [|id [|t rest]| | | |]; try discriminate;
      try (inv_some; simpl; auto).
    + unfold try_recv in H. rewrite Hb in H. inv_some. simpl.
      split; [exact Hb|]. intros K. apply in_app_or in K as [K|[K|[]]]; auto.
      discriminate.
    + destruct (has_room _); inv_some. simpl. auto.
Qed.

(** X5: only os.Interrupt interrupts a run, since that is the one signal
    Start subscribes r.interrupt to.  In every execution in which the
    operating system raises no interrupt, whatever other signals it raises,
    r.interrupt stays empty, no poll finds a signal and Start does not
    return ErrInterrupt. *)
Theorem only_Interrupt_interrupts d (w0 : World) batches sched s :
  ~ In (LSignal Interrupt) sched ->
  exec sched (AddAll batches (New d w0)) = Some s ->
  buf (interrupt (rn s)) = [] /\
  ~ In true (checks s) /\
  main s <> MReturned (Some ErrInterrupt).
Proof.
  intros Hn He.
  assert (Q : buf (interrupt (rn s)) = [] /\ ~ In true (checks s)).
  { assert (Q0 : buf (interrupt (rn (AddAll batches (New d w0)))) = [] /\
                 ~ In true (checks (AddAll batches (New d w0))))
      by (rewrite AddAll_frame; simpl; auto).
    revert Q0 He Hn. generalize (AddAll batches (New d w0)).
    induction sched as [|l ls IH]; simpl; intros s0 Q0 He Hn.
    - now inv_some.
    - destruct (step l s0) as [s1|] eqn:E; [|discriminate].
      apply (IH s1); auto.
      eapply quiet_step; eauto. }
  destruct Q as [Hb Hc]. repeat split; auto.
  intros Em.
  pose proof (Start_inv_interrupted := returned_inv
                (Inv_exec _ (Inv_New d w0 batches) He) Em).
  destruct Start_inv_interrupted as [(? & _)|[_ HF]]; [discriminate|].
  destruct HF as (_ & done & rest & _ & _ & _ & Hk & _).
  apply Hc. rewrite Hk. apply in_or_app. right. now left.
Qed.

(** ** An interrupt during the last task *)

(** The loop has made its last poll: the last task runs, or the loop is at
    its end, or run has returned nil. *)
Definition PastLastPoll (calls : list (Task World * Z)) (polls : list bool) s : Prop :=
  invoked s = calls /\ checks s = polls /\
  match worker s with
  | WTask _ _ rest => rest = []
  | WLoop _ rest => rest = []
  | WSend err => err = None
  | WExit => main s = MReturned None
  | WNone | WStop => False
  end.

Lemma PastLastPoll_step l (w0 : World) calls polls s s' :
  Inv w0 s -> PastLastPoll calls polls s -> step l s = Some s' ->
  PastLastPoll calls polls s'.
Proof.
  intros [HC HW] (Hi & Hc & HP) H. subst calls polls. unfold PastLastPoll.
  unfold WorkerInv, Waiting in HW.
  destruct l; simpl in H.
  - inv_some. unfold relay. destruct (_ && _); simpl; auto.
  - unfold fire in H. destruct (timer s); inv_some. simpl. auto.
  - unfold Start_step in H. destruct (main s) eqn:Em; inv_some; simpl.
    + repeat split. destruct (worker s); try exact HP;
        try (destruct HW as ([?|?] & _); discriminate).
      discriminate.
    + destruct (worker s); try contradiction;
        try (destruct HW as ([?|?] & _); discriminate).
      discriminate.
  - unfold select_complete in H. destruct (main s); try discriminate.
    destruct HC as (_ & _ & _ & l2 & _). unfold try_recv in H. rewrite l2 in H.
    destruct (worker s); inv_some. simpl. subst. auto.
  - unfold select_timeout in H. destruct (main s); try discriminate.
    destruct (try_recv _) as [[]|]; inv_some. simpl.
    repeat split. destruct (worker s); try exact HP.
    destruct HW as (e & ? & _); congruence.
  - unfold run_step in H.
    destruct (worker s) as [|id [|t rest]| |id t rest|err|]; try discriminate;
      try contradiction.
    + inv_some. simpl. auto.
    + inv_some. simpl. auto.
    + destruct HC as (_ & _ & c2 & _). unfold has_room in H. rewrite c2 in H.
      simpl in H. discriminate.
Qed.

(** X11: an interrupt that arrives once the loop has made its last poll is
    never seen.  From an execution in which the last task is running, or
    has returned, every execution goes on without a further poll or call,
    whatever signals are raised, and Start returns nil, or ErrTimeout when
    the deadline timer has fired: never ErrInterrupt. *)
Theorem interrupt_in_last_task_ignored d (w0 : World) batches sched0 s0 id t sched s :
  exec sched0 (AddAll batches (New d w0)) = Some s0 ->
  worker s0 = WTask id t [] \/ worker s0 = WLoop id [] ->
  exec sched s0 = Some s ->
  checks s = checks s0 /\
  invoked s = invoked s0 /\
  invoked s = indexed 0 (concat batches) /\
  (forall err, main s = MReturned err ->
     err = None \/ (err = Some ErrTimeout /\ timer s = None)).
Proof.
  intros H0 Hw He.
  pose proof (Inv_exec _ (Inv_New d w0 batches) H0) as HI0.
  assert (P0 : PastLastPoll (invoked s0) (checks s0) s0).
  { unfold PastLastPoll. repeat split. destruct Hw as [-> | ->]; reflexivity. }
  assert (P : PastLastPoll (invoked s0) (checks s0) s).
  { clear H0 Hw. revert s0 HI0 P0 He.
    induction sched as [|l ls IH]; simpl; intros s0 HI0 P0 He.
    - now inv_some.
    - destruct (step l s0) as [s1|] eqn:E; [|discriminate].
      pose proof (PastLastPoll_step _ HI0 P0 E) as P1.
      destruct P0 as (I0 & C0 & _). destruct P1 as (I1 & C1 & W1).
      destruct (IH s1 (Inv_step _ HI0 E)) as (I & C & W); auto.
      + unfold PastLastPoll. auto.
      + unfold PastLastPoll. repeat split; auto; congruence. }
  destruct P as (Hi & Hc & HP).
  pose proof (Inv_exec _ HI0 He) as HI.
  split; [exact Hc|]. split; [exact Hi|]. split.
  - rewrite Hi, <- (tasks_run _ _ _ _ H0).
    destruct HI0 as [_ HW]. unfold WorkerInv, Ghost in HW.
    destruct Hw as [Ew|Ew]; rewrite Ew in HW.
    + destruct HW as (_ & _ & done & HT & _ & Hi0 & _). now rewrite HT, Hi0.
    + destruct HW as (_ & _ & done & HT & _ & Hi0 & _).
      now rewrite HT, app_nil_r, Hi0.
  - intros err Em.
    destruct (returned_inv HI Em) as [(? & ? & _)|[Ew _]]; [right; auto|left].
    rewrite Ew in HP. congruence.
Qed.


(** ** run as a function *)

Lemma run_loop_clear ts id s :
  buf (interrupt (rn s)) = [] ->
  fst (run_loop id ts s) = None /\
  invoked (snd (run_loop id ts s)) = invoked s ++ indexed id ts /\
  world (snd (run_loop id ts s)) = apply_all id ts (world s) /\
  checks (snd (run_loop id ts s)) = checks s ++ repeat false (length ts) /\
  subscribed (snd (run_loop id ts s)) = subscribed s /\
  rn (snd (run_loop id ts s)) = rn s.
Proof.
  revert id s; induction ts as [|t rest IH]; intros id s Hb; simpl.
  - rewrite !app_nil_r. repeat split.
  - unfold gotInterrupt, try_recv. rewrite Hb.
    destruct (IH (id + 1)%Z
                (with_world (t id (world (log_check false s)))
                   (log_call t id (log_check false s))) Hb)
      as (R & I & W & C & S & N).
    rewrite R, I, W, C, S, N. simpl.
    rewrite <- !app_assoc. repeat split.
Qed.

(** X8: run, left alone, on a runner whose r.interrupt is empty calls every
    task once, in order, with its index, polls once before each call,
    leaves the struct and the subscription as they are and returns nil.
    With a signal in r.interrupt and at least one task it calls nothing,
    takes one signal out of the channel, ends the subscription and returns
    ErrInterrupt. *)
Theorem run_alone s :
  (buf (interrupt (rn s)) = [] ->
     fst (run s) = None /\
     invoked (snd (run s)) = invoked s ++ indexed 0 (tasks (rn s)) /\
     world (snd (run s)) = apply_all 0 (tasks (rn s)) (world s) /\
     checks (snd (run s)) = checks s ++ repeat false (length (tasks (rn s))) /\
     subscribed (snd (run s)) = subscribed s /\
     rn (snd (run s)) = rn s) /\
  (buf (interrupt (rn s)) <> [] -> tasks (rn s) <> [] ->
     fst (run s) = Some ErrInterrupt /\
     invoked (snd (run s)) = invoked s /\
     world (snd (run s)) = world s /\
     checks (snd (run s)) = checks s ++ [true] /\
     subscribed (snd (run s)) = false /\
     buf (interrupt (rn (snd (run s)))) = tl (buf (interrupt (rn s))) /\
     tasks (rn (snd (run s))) = tasks (rn s)).
Proof.
  split.
  - apply run_loop_clear.
  - intros Hb HT. unfold run.
    destruct (tasks (rn s)) as [|t rest] eqn:ET; [congruence|].
    simpl. unfold gotInterrupt, try_recv.
    destruct (buf (interrupt (rn s))) as [|x q] eqn:Eb; [congruence|].
    simpl. rewrite ET. repeat split.
Qed.

Lemma worker_bound ts id s :
  exists n,
    n <= 2 * length ts + 1 /\
    exec (repeat LWorker n) (with_worker (WLoop id ts) s)
    = Some (with_worker (WSend (fst (run_loop id ts s))) (snd (run_loop id ts s))).
Proof.
  revert s id; induction ts as [|t rest IH]; intros s id.
  - exists 1. split; [simpl; lia|reflexivity].
  - simpl run_loop. unfold gotInterrupt.
    destruct (try_recv (interrupt (rn s))) as [[x c]|] eqn:E.
    + exists 2. split; [simpl; lia|].
      simpl. unfold run_step. simpl. rewrite E. reflexivity.
    + destruct (IH (with_world (t id (world s)) (log_call t id (log_check false s)))
                  (id + 1)%Z) as (n & Hn & Hx).
      exists (S (S n)). split; [simpl length; lia|].
      simpl. unfold run_step at 1. simpl. rewrite E.
      unfold run_step at 1. simpl. exact Hx.
Qed.

(** X9: the worker goroutine, left alone from the head of the loop, gets to
    its send in at most 2N+1 actions, N being the number of tasks, and it
    gets there with the result and in the state that run computes as a
    function. *)
Theorem worker_alone_computes_run s :
  exists n,
    n <= 2 * length (tasks (rn s)) + 1 /\
    exec (repeat LWorker n) (with_worker (WLoop 0 (tasks (rn s))) s)
    = Some (with_worker (WSend (fst (run s))) (snd (run s))).
Proof. apply worker_bound. Qed.


(** ** The results that can occur *)

Lemma run_loop_main ts id s : main (snd (run_loop id ts s)) = main s.
Proof.
  revert id s; induction ts as [|t rest IH]; intros id s; simpl; [reflexivity|].
  unfold gotInterrupt. destruct (try_recv _) as [[x c]|]; simpl; [reflexivity|].
  now rewrite IH.
Qed.



(** X12: each of the three results of Start can occur, whatever the tasks.
    When nothing interferes (Start, then the worker alone for some n
    actions, at most 2N+1, then the select on r.complete) Start returns nil
    after every task has been called in order with its index.  When the
    deadline passes before Start is called and the select runs before the
    worker moves, Start returns ErrTimeout and no task has been called.
    And when there is at least one task and an interrupt arrives before
    the first poll, Start can return ErrInterrupt with no task called. *)
Theorem every_result_can_occur d (w0 : World) batches :
  (exists n s,
     n <= 2 * length (concat batches) + 1 /\
     exec ([LStart; LStart] ++ repeat LWorker n ++ [LComplete])
          (AddAll batches (New d w0)) = Some s /\
     main s = MReturned None /\
     invoked s = indexed 0 (concat batches) /\
     world s = apply_all 0 (concat batches) w0) /\
  (exists s,
     exec [LTimer 0%Z; LStart; LStart; LTimeout] (AddAll batches (New d w0)) = Some s /\
     main s = MReturned (Some ErrTimeout) /\
     invoked s = []) /\
  (concat batches <> [] ->
   exists s,
     exec [LStart; LStart; LSignal Interrupt; LWorker; LWorker; LComplete]
          (AddAll batches (New d w0)) = Some s /\
     main s = MReturned (Some ErrInterrupt) /\
     invoked s = []).
Proof.
  rewrite AddAll_frame.
  change (tasks (rn (New d w0)) ++ concat batches) with (concat batches).
  set (T := concat batches).
  split; [|split].
  - set (s1 := with_main MSelect (with_tasks T (Notify (New d w0)))).
    destruct (worker_bound T 0%Z s1) as (n & Hn & Hx).
    assert (Hb : buf (interrupt (rn s1)) = []) by reflexivity.
    destruct (run_loop_clear T 0%Z s1 Hb) as (R & I & W & _ & _ & N).
    pose proof (run_loop_main T 0%Z s1) as M.
    set (r := run_loop 0 T s1) in *.
    assert (E0 : exec [LStart; LStart] (with_tasks T (New d w0))
                 = Some (with_worker (WLoop 0 T) s1)) by reflexivity.
    assert (E1 : select_complete (with_worker (WSend (fst r)) (snd r))
                 = Some (with_main (MReturned None)
                           (with_worker WExit (with_worker (WSend (fst r)) (snd r))))).
    { unfold select_complete, try_recv.
      cbn [main with_worker rn complete worker].
      rewrite M, N, R. reflexivity. }
    exists n.
    exists (with_main (MReturned None)
              (with_worker WExit (with_worker (WSend (fst r)) (snd r)))).
    split; [exact Hn|]. split.
    + rewrite exec_app, E0, exec_app, Hx. cbn [exec step]. now rewrite E1.
    + cbn [main with_main invoked with_worker world].
      rewrite I, W. repeat split.
  - exists (mkSys (mkRunner (make Signal 1) (make (option error) 0) (mkChan [] 1) T)
              true None (MReturned (Some ErrTimeout)) (WLoop 0 T) w0 [] []).
    split; [vm_compute; reflexivity|]. split; reflexivity.
  - intros HT. destruct T as [|t rest]; [congruence|].
    exists (mkSys (mkRunner (mkChan [] 1) (make (option error) 0) (make Time 1)
                     (t :: rest))
              false (Some d) (MReturned (Some ErrInterrupt)) WExit w0 [] [true]).
    split; [vm_compute; reflexivity|]. split; reflexivity.
Qed.

End Proofs.

(** * The properties at work on the scenarios *)

Import Scenario.

(** C1 at work: the three tasks run to the end. *)
Lemma Start_success_witness :
  exec full_run three_tasks = Some (final full_run three_tasks) /\
  main (final full_run three_tasks) = MReturned None /\
  map snd (invoked (final full_run three_tasks)) = [0; 1; 2]%Z /\
  map fst (invoked (final full_run three_tasks)) = [ta; tb; tc] /\
  world (final full_run three_tasks) = [10; 0; 20; 1; 30; 2]%Z.
Proof.
  assert (He : exec full_run three_tasks = Some (final full_run three_tasks))
    by (vm_compute; reflexivity).
  assert (Hm : main (final full_run three_tasks) = MReturned None)
    by (vm_compute; reflexivity).
  assert (Ht : timer (final full_run three_tasks) <> None)
    by (vm_compute; discriminate).
  assert (Hc : ~ In true (checks (final full_run three_tasks)))
    by (vm_compute; intuition discriminate).
  destruct (Start_success 1000%Z [] [[ta]; [tb; tc]] full_run He Ht Hc) as (H & _).
  destruct (H None Hm) as (_ & _ & Hf & Hs & Hw).
  exact (conj He (conj Hm (conj Hs (conj Hf Hw)))).
Defined.



(** C3, as stated, fails: the interrupt arrives while tb (task 1) runs and
    tc is still to come, yet Start returns ErrTimeout, because the deadline
    passes before tb returns. *)
Lemma interrupt_in_task_loses_to_deadline :
  exec interrupt_in_tb three_tasks = Some in_tb /\
  worker in_tb = WTask 1 tb [tc] /\
  buf (interrupt (rn in_tb)) = [Interrupt] /\
  exec [LTimer 9%Z; LTimeout] in_tb = Some (final [LTimer 9%Z; LTimeout] in_tb) /\
  main (final [LTimer 9%Z; LTimeout] in_tb) = MReturned (Some ErrTimeout).
Proof. repeat (split; [vm_compute; reflexivity|]). vm_compute; reflexivity. Qed.

(** C3, amended, at work: the interrupt arrives while tb runs; ta and tb are
    the only tasks called and Start returns ErrInterrupt. *)
Lemma interrupt_between_tasks_witness :
  exec then_interrupted in_tb = Some (final then_interrupted in_tb) /\
  invoked (final then_interrupted in_tb) = [(ta, 0%Z); (tb, 1%Z)] /\
  map snd (invoked (final then_interrupted in_tb)) = [0; 1]%Z /\
  main (final then_interrupted in_tb) = MReturned (Some ErrInterrupt).
Proof.
  assert (H0 : exec interrupt_in_tb three_tasks = Some in_tb)
    by (vm_compute; reflexivity).
  assert (HI : Inv [] in_tb)
    by exact (Inv_exec interrupt_in_tb (Inv_New 1000%Z [] [[ta]; [tb; tc]]) H0).
  assert (Hw : worker in_tb = WTask (Z.of_nat 1) tb [tc] \/
               worker in_tb = WLoop (Z.of_nat 1 + 1) [tc])
    by (left; vm_compute; reflexivity).
  assert (Hr : [tc] <> []) by discriminate.
  assert (Hb : buf (interrupt (rn in_tb)) <> []) by (vm_compute; discriminate).
  assert (He : exec then_interrupted in_tb = Some (final then_interrupted in_tb))
    by (vm_compute; reflexivity).
  assert (Hm : main (final then_interrupted in_tb) = MReturned (Some ErrInterrupt))
    by (vm_compute; reflexivity).
  assert (HT : indexed 0 (firstn 2 (tasks (rn in_tb))) = [(ta, 0%Z); (tb, 1%Z)])
    by (vm_compute; reflexivity).
  destruct (interrupt_between_tasks 1 then_interrupted HI Hw Hr Hb He) as (Hi & Hs & _).
  exact (conj He (conj (eq_trans Hi HT) (conj Hs Hm))).
Defined.

(** C4 at work: no task and an interrupt in r.interrupt; the run polls
    nothing, leaves the interrupt where it is, and Start returns nil. *)
Lemma run_empty_witness :
  exec empty_run no_task_signalled = Some (final empty_run no_task_signalled) /\
  checks (final empty_run no_task_signalled) = [] /\
  invoked (final empty_run no_task_signalled) = [] /\
  buf (interrupt (rn (final empty_run no_task_signalled))) <> [] /\
  main (final empty_run no_task_signalled) = MReturned None.
Proof.
  assert (HI : Inv [] no_task_signalled)
    by exact (Inv_preload Interrupt (Inv_New 0%Z [] [])).
  assert (Em : main no_task_signalled = MInit) by (vm_compute; reflexivity).
  assert (HT : tasks (rn no_task_signalled) = []) by (vm_compute; reflexivity).
  assert (Hb : buf (interrupt (rn no_task_signalled)) <> [])
    by (vm_compute; discriminate).
  assert (He : exec empty_run no_task_signalled
               = Some (final empty_run no_task_signalled))
    by (vm_compute; reflexivity).
  assert (Hm : main (final empty_run no_task_signalled) = MReturned None)
    by (vm_compute; reflexivity).
  destruct (run_empty empty_run HI Em HT He) as (Hc & Hi & Hk & _).
  exact (conj He (conj Hc (conj Hi (conj (Hk Hb) Hm)))).
Defined.

(** C5, as stated, fails: the deadline timer has fired and the result of run
    has not been delivered, yet the select takes r.complete and Start
    returns nil. *)
Lemma fired_timer_can_lose :
  exec both_ready no_task = Some (final both_ready no_task) /\
  timer (final both_ready no_task) = None /\
  buf (timeout (rn (final both_ready no_task))) = [1%Z] /\
  main (final both_ready no_task) = MSelect /\
  worker (final both_ready no_task) = WSend None /\
  step LComplete (final both_ready no_task)
    = Some (final (both_ready ++ [LComplete]) no_task) /\
  main (final (both_ready ++ [LComplete]) no_task) = MReturned None.
Proof. repeat (split; [vm_compute; reflexivity|]). vm_compute; reflexivity. Qed.

(** C5, amended, at work: the deadline passes while ta runs; the select can
    only take r.timeout, Start returns ErrTimeout and the worker is still
    inside ta. *)
Lemma timeout_case_witness :
  exists s',
    step LTimeout in_ta = Some s' /\
    main s' = MReturned (Some ErrTimeout) /\
    worker s' = worker in_ta /\
    step LComplete in_ta = None.
Proof.
  assert (H0 : exec deadline_in_ta three_tasks = Some in_ta)
    by (vm_compute; reflexivity).
  assert (HI : Inv [] in_ta)
    by exact (Inv_exec deadline_in_ta (Inv_New 1000%Z [] [[ta]; [tb; tc]]) H0).
  assert (Em : main in_ta = MSelect) by (vm_compute; reflexivity).
  assert (Hb : buf (timeout (rn in_ta)) <> []) by (vm_compute; discriminate).
  assert (Hw : forall err, worker in_ta <> WSend err)
    by (intros err; vm_compute; discriminate).
  destruct (timeout_case HI Em Hb)
    as (s' & H1 & H2 & H3 & _ & _ & _ & _ & _ & _ & _ & _ & H4).
  exists s'. exact (conj H1 (conj H2 (conj H3 (proj1 (H4 Hw))))).
Defined.

(** C7, as stated, fails: Start returns ErrTimeout and the subscription is
    not live.  Either the worker has received an interrupt and stopped the
    subscription just before the deadline passes; or Start returns
    ErrTimeout with the subscription live, and the worker it left behind
    receives an interrupt afterwards and stops it. *)
Lemma timeout_with_subscription_ended :
  (exec stop_then_deadline one_task = Some (final stop_then_deadline one_task) /\
   main (final stop_then_deadline one_task) = MReturned (Some ErrTimeout) /\
   subscribed (final stop_then_deadline one_task) = false) /\
  (exec timed_out_in_ta three_tasks = Some left_behind /\
   main left_behind = MReturned (Some ErrTimeout) /\
   subscribed left_behind = true /\
   exec orphan_interrupted left_behind
     = Some (final orphan_interrupted left_behind) /\
   main (final orphan_interrupted left_behind) = MReturned (Some ErrTimeout) /\
   subscribed (final orphan_interrupted left_behind) = false).
Proof.
  split; repeat (split; [vm_compute; reflexivity|]); vm_compute; reflexivity.
Qed.

(** C7, amended, at work: after the full run Start has returned nil and the
    subscription is live. *)
Lemma unsubscribe_only_in_loop_witness :
  exec full_run three_tasks = Some (final full_run three_tasks) /\
  main (final full_run three_tasks) = MReturned None /\
  subscribed (final full_run three_tasks) = true.
Proof.
  assert (He : exec full_run three_tasks = Some (final full_run three_tasks))
    by (vm_compute; reflexivity).
  assert (Hm : main (final full_run three_tasks) = MReturned None)
    by (vm_compute; reflexivity).
  destruct (unsubscribe_only_in_loop 1000%Z [] [[ta]; [tb; tc]] full_run He)
    as (_ & _ & H & _).
  exact (conj He (conj Hm (H Hm))).
Defined.

(** C8, as stated, fails: a poll has found an interrupt and Start has
    returned ErrInterrupt, but a second interrupt arrived between the
    receive and signal.Stop and is still in r.interrupt: a later
    gotInterrupt on the same runner returns true. *)
Lemma later_check_sees_window_signal :
  exec window_then_return three_tasks
    = Some (final window_then_return three_tasks) /\
  checks (final window_then_return three_tasks) = [true] /\
  main (final window_then_return three_tasks) = MReturned (Some ErrInterrupt) /\
  subscribed (final window_then_return three_tasks) = false /\
  buf (interrupt (rn (final window_then_return three_tasks))) = [Interrupt] /\
  fst (gotInterrupt (final window_then_return three_tasks)) = true.
Proof. repeat (split; [vm_compute; reflexivity|]). vm_compute; reflexivity. Qed.

(** C8, amended, at work: the interrupt arrives during tb and none in the
    window; the poll before tc is the only one that finds a signal, and a
    gotInterrupt after the run returns false, also after two more
    interrupts. *)
Lemma interrupt_consumed_once_witness :
  exec interrupted_run three_tasks = Some (final interrupted_run three_tasks) /\
  window_free interrupted_run three_tasks = true /\
  checks (final interrupted_run three_tasks) = [false; false] ++ true :: [] /\
  buf (interrupt (rn (final interrupted_run three_tasks))) = [] /\
  fst (gotInterrupt (raise [Interrupt; Interrupt]
                       (final interrupted_run three_tasks))) = false.
Proof.
  assert (He : exec interrupted_run three_tasks
               = Some (final interrupted_run three_tasks))
    by (vm_compute; reflexivity).
  assert (Hw : window_free interrupted_run three_tasks = true)
    by (vm_compute; reflexivity).
  assert (Hc : checks (final interrupted_run three_tasks)
               = [false; false] ++ true :: []) by (vm_compute; reflexivity).
  assert (Hs : In true (checks (final interrupted_run three_tasks)))
    by (vm_compute; auto).
  assert (Hn : worker (final interrupted_run three_tasks) <> WStop)
    by (vm_compute; discriminate).
  destruct (interrupt_consumed_once 1000%Z [] [[ta]; [tb; tc]] interrupted_run He)
    as (_ & _ & H3 & _).
  destruct (H3 Hw Hs Hn) as (Hb & _ & Hg).
  exact (conj He (conj Hw (conj Hc (conj Hb (Hg [Interrupt; Interrupt]))))).
Defined.

(** C9, as stated, fails: Start has returned ErrTimeout while ta runs.  The
    worker does not stop when ta returns: it calls tb and tc as well.  And
    when run has returned it is at its send, where it stays: no execution
    from there brings it to its end. *)
Lemma orphan_is_stuck :
  exec timed_out_in_ta three_tasks = Some left_behind /\
  main left_behind = MReturned (Some ErrTimeout) /\
  exec orphan_runs_on left_behind = Some (final orphan_runs_on left_behind) /\
  map snd (invoked (final orphan_runs_on left_behind)) = [0; 1; 2]%Z /\
  worker (final orphan_runs_on left_behind) = WSend None /\
  step LWorker (final orphan_runs_on left_behind) = None /\
  ~ (exists sched s',
       exec sched (final orphan_runs_on left_behind) = Some s' /\ worker s' = WExit).
Proof.
  assert (H0 : exec timed_out_in_ta three_tasks = Some left_behind)
    by (vm_compute; reflexivity).
  assert (H1 : exec orphan_runs_on left_behind
               = Some (final orphan_runs_on left_behind))
    by (vm_compute; reflexivity).
  assert (Em : main (final orphan_runs_on left_behind) = MReturned (Some ErrTimeout))
    by (vm_compute; reflexivity).
  assert (HI : Inv [] (final orphan_runs_on left_behind)).
  { eapply Inv_exec; [|exact H1]. eapply Inv_exec; [|exact H0].
    exact (Inv_New 1000%Z [] [[ta]; [tb; tc]]). }
  split; [exact H0|]. split; [vm_compute; reflexivity|]. split; [exact H1|].
  split; [vm_compute; reflexivity|]. split; [vm_compute; reflexivity|].
  split; [vm_compute; reflexivity|].
  intros (sched & s' & He & Hw).
  destruct (orphan_exec sched HI Em He) as (_ & Hne & _).
  exact (Hne Hw).
Qed.

(** C9, amended, at work: the worker left behind finishes ta, run returns
    nil, and the worker stays at its send. *)
Lemma orphan_never_ends_witness :
  exec orphan_finishes orphaned = Some (final orphan_finishes orphaned) /\
  main (final orphan_finishes orphaned) = MReturned (Some ErrTimeout) /\
  worker (final orphan_finishes orphaned) = WSend None /\
  worker (final orphan_finishes orphaned) <> WExit /\
  step LWorker (final orphan_finishes orphaned) = None /\
  step LComplete (final orphan_finishes orphaned) = None.
Proof.
  assert (H0 : exec timed_out_in_ta one_task = Some orphaned)
    by (vm_compute; reflexivity).
  assert (HI : Inv [] orphaned)
    by exact (Inv_exec timed_out_in_ta (Inv_New 1000%Z [] [[ta]]) H0).
  assert (Em : main orphaned = MReturned (Some ErrTimeout))
    by (vm_compute; reflexivity).
  assert (He : exec orphan_finishes orphaned = Some (final orphan_finishes orphaned))
    by (vm_compute; reflexivity).
  assert (Hw : worker (final orphan_finishes orphaned) = WSend None)
    by (vm_compute; reflexivity).
  destruct (orphan_never_ends orphan_finishes HI Em He) as (Hm & Hne & _ & Hb & _).
  destruct (Hb None Hw) as [B1 B2].
  exact (conj He (conj Hm (conj Hw (conj Hne (conj B1 B2))))).
Defined.

(** C10 at work: five interrupts in a row while the worker has not polled
    leave one signal in r.interrupt, as one interrupt does. *)
Lemma interrupt_buffer_of_one_witness :
  exec [LStart; LStart] three_tasks = Some started /\
  subscribed started = true /\
  exec (repeat (LSignal Interrupt) 5) started = Some (relay Interrupt started) /\
  length (buf (interrupt (rn (relay Interrupt started)))) = 1 /\
  fst (gotInterrupt (relay Interrupt started)) = true /\
  fst (gotInterrupt (snd (gotInterrupt (relay Interrupt started)))) = false.
Proof.
  assert (He : exec [LStart; LStart] three_tasks = Some started)
    by (vm_compute; reflexivity).
  assert (Hs : subscribed started = true) by (vm_compute; reflexivity).
  destruct (interrupt_buffer_of_one 1000%Z [] [[ta]; [tb; tc]] [LStart; LStart] 4 He)
    as (_ & _ & _ & H1 & H2).
  destruct (H2 Hs) as (L & G1 & _ & G2).
  exact (conj He (conj Hs (conj H1 (conj L (conj G1 G2))))).
Defined.

(** ** Two more runs *)

(** An interrupt that arrives while the last task runs is never polled for:
    run returns nil and the signal stays in r.interrupt. *)
Example interrupt_in_last_task_unseen :
  exec interrupt_in_last one_task = Some (final interrupt_in_last one_task) /\
  main (final interrupt_in_last one_task) = MReturned None /\
  checks (final interrupt_in_last one_task) = [false] /\
  buf (interrupt (rn (final interrupt_in_last one_task))) = [Interrupt].
Proof. repeat (split; [vm_compute; reflexivity|]). vm_compute; reflexivity. Qed.

(** An interrupt that arrives between the receive of gotInterrupt and its
    signal.Stop is still relayed: it is in r.interrupt when the subscription
    has ended.  The run does not poll again, so it is never seen. *)
Example signal_in_the_window :
  exec second_in_window three_tasks = Some (final second_in_window three_tasks) /\
  checks (final second_in_window three_tasks) = [true] /\
  subscribed (final second_in_window three_tasks) = false /\
  worker (final second_in_window three_tasks) = WSend (Some ErrInterrupt) /\
  buf (interrupt (rn (final second_in_window three_tasks))) = [Interrupt].
Proof. repeat (split; [vm_compute; reflexivity|]). vm_compute; reflexivity. Qed.

(** * The further properties at work *)

(** X1 at work: while tb runs, ta and tb are the calls made and the log has
    what ta wrote. *)
Lemma calls_are_a_prefix_witness :
  exec interrupt_in_tb three_tasks = Some in_tb /\
  invoked in_tb = [(ta, 0%Z); (tb, 1%Z)] /\
  world in_tb = [10; 0]%Z.
Proof.
  assert (He : exec interrupt_in_tb three_tasks = Some in_tb)
    by (vm_compute; reflexivity).
  assert (Ew : worker in_tb = WTask 1 tb [tc]) by (vm_compute; reflexivity).
  assert (E1 : indexed 0 (firstn (length (invoked in_tb)) (concat [[ta]; [tb; tc]]))
               = [(ta, 0%Z); (tb, 1%Z)]) by (vm_compute; reflexivity).
  assert (E2 : apply_all 0 (firstn (length (invoked in_tb) - 1)
                              (concat [[ta]; [tb; tc]])) []
               = [10; 0]%Z) by (vm_compute; reflexivity).
  destruct (@calls_are_a_prefix Log 1000%Z [] [[ta]; [tb; tc]] interrupt_in_tb
              in_tb He) as (_ & I & W).
  rewrite Ew in W. destruct W as [_ W].
  exact (conj He (conj (eq_trans I E1) (eq_trans W E2))).
Defined.

(** X2 at work: the run interrupted during tb returns ErrInterrupt, a poll
    has found the signal and the subscription has ended. *)
Lemma Start_result_sound_witness :
  exec interrupted_run three_tasks = Some (final interrupted_run three_tasks) /\
  main (final interrupted_run three_tasks) = MReturned (Some ErrInterrupt) /\
  In true (checks (final interrupted_run three_tasks)) /\
  subscribed (final interrupted_run three_tasks) = false.
Proof.
  assert (He : exec interrupted_run three_tasks
               = Some (final interrupted_run three_tasks))
    by (vm_compute; reflexivity).
  assert (Em : main (final interrupted_run three_tasks)
               = MReturned (Some ErrInterrupt)) by (vm_compute; reflexivity).
  pose proof (Start_result_sound 1000%Z [] [[ta]; [tb; tc]] interrupted_run He Em)
    as H.
  cbv beta iota in H. destruct H as (H1 & H2 & _).
  exact (conj He (conj Em (conj H1 H2))).
Defined.

(** X3 at work: the full run of three tasks has ten moves of the program,
    which is the bound. *)
Lemma Start_terminates_witness :
  exec full_run three_tasks = Some (final full_run three_tasks) /\
  program_steps full_run = 10 /\
  program_steps full_run + fuel (final full_run three_tasks) <= 10.
Proof.
  assert (He : exec full_run three_tasks = Some (final full_run three_tasks))
    by (vm_compute; reflexivity).
  destruct (Start_terminates 1000%Z [] [[ta]; [tb; tc]] full_run He) as (_ & B).
  exact (conj He (conj eq_refl B)).
Defined.

(** X5 at work: two signals that are not interrupts arrive during the run;
    r.interrupt stays empty and Start does not return ErrInterrupt. *)
Lemma only_Interrupt_interrupts_witness :
  ~ In (LSignal Interrupt) run_with_kills /\
  exec run_with_kills three_tasks = Some (final run_with_kills three_tasks) /\
  buf (interrupt (rn (final run_with_kills three_tasks))) = [] /\
  main (final run_with_kills three_tasks) <> MReturned (Some ErrInterrupt).
Proof.
  assert (Hn : ~ In (LSignal Interrupt) run_with_kills)
    by (vm_compute; intuition discriminate).
  assert (He : exec run_with_kills three_tasks
               = Some (final run_with_kills three_tasks))
    by (vm_compute; reflexivity).
  destruct (only_Interrupt_interrupts 1000%Z [] [[ta]; [tb; tc]] run_with_kills Hn He)
    as (Hb & _ & Hm).
  exact (conj Hn (conj He (conj Hb Hm))).
Defined.

(** X7 at work: when the poll before tc has found the interrupt there are
    two calls and three polls. *)
Lemma one_poll_per_call_witness :
  exec (interrupt_in_tb ++ [LWorker; LWorker]) three_tasks
    = Some (final [LWorker; LWorker] in_tb) /\
  length (invoked (final [LWorker; LWorker] in_tb)) = 2 /\
  (checks (final [LWorker; LWorker] in_tb)
     = repeat false (length (invoked (final [LWorker; LWorker] in_tb))) \/
   checks (final [LWorker; LWorker] in_tb)
     = repeat false (length (invoked (final [LWorker; LWorker] in_tb))) ++ [true]).
Proof.
  assert (He : exec (interrupt_in_tb ++ [LWorker; LWorker]) three_tasks
               = Some (final [LWorker; LWorker] in_tb))
    by (vm_compute; reflexivity).
  assert (L : length (invoked (final [LWorker; LWorker] in_tb)) = 2)
    by (vm_compute; reflexivity).
  exact (conj He (conj L
           (one_poll_per_call 1000%Z [] [[ta]; [tb; tc]] _ He))).
Defined.

(** X10 at work: after the full run Start has returned nil and the worker
    has ended. *)
Lemma worker_ends_iff_delivered_witness :
  exec full_run three_tasks = Some (final full_run three_tasks) /\
  main (final full_run three_tasks) = MReturned None /\
  worker (final full_run three_tasks) = WExit.
Proof.
  assert (He : exec full_run three_tasks = Some (final full_run three_tasks))
    by (vm_compute; reflexivity).
  assert (Em : main (final full_run three_tasks) = MReturned None)
    by (vm_compute; reflexivity).
  destruct (worker_ends_iff_delivered 1000%Z [] [[ta]; [tb; tc]] full_run He)
    as ([_ B] & _).
  exact (conj He (conj Em (B (or_introl Em)))).
Defined.

(** X11 at work: the interrupt arrives while the only task runs; there is
    no further poll and Start returns nil. *)
Lemma interrupt_in_last_task_ignored_witness :
  exec last_running one_task = Some in_last /\
  worker in_last = WTask 0 ta [] /\
  exec late_interrupt in_last = Some (final late_interrupt in_last) /\
  checks (final late_interrupt in_last) = [false] /\
  main (final late_interrupt in_last) = MReturned None.
Proof.
  assert (H0 : exec last_running one_task = Some in_last)
    by (vm_compute; reflexivity).
  assert (Ew : worker in_last = WTask 0 ta []) by (vm_compute; reflexivity).
  assert (He : exec late_interrupt in_last = Some (final late_interrupt in_last))
    by (vm_compute; reflexivity).
  assert (Ec : checks in_last = [false]) by (vm_compute; reflexivity).
  assert (Em : main (final late_interrupt in_last) = MReturned None)
    by (vm_compute; reflexivity).
  destruct (interrupt_in_last_task_ignored 1000%Z [] [[ta]] last_running
              late_interrupt H0 (or_introl Ew) He) as (C & _).
  exact (conj H0 (conj Ew (conj He (conj (eq_trans C Ec) Em)))).
Defined.
